(** * Multipass: the launch client, backend selection, the virtual-machine
    contract and download cancellation

    A shallow embedding of the parts of the repository that the
    specification talks about:

    - [src/client/cli/cmd/launch.cpp]: the network-option parser
      ([checked_mode], [checked_mac], [net_digest]) and the three call-backs
      of [cmd::Launch::request_launch] ([on_success], [on_failure],
      [streaming_callback]);
    - [include/multipass/url_downloader.h]: the cancellation flag of
      [URLDownloader];
    - [tests/linux/test_platform_linux.cpp]: the expectations on
      [mp::platform::vm_backend] and [mp::platform::is_backend_supported];
    - [src/platform/backends/libvirt/libvirt_virtual_machine.h] and
      [tests/mock_virtual_machine.h]: the operations of a virtual machine.

    Strings ([QString], [std::string]) are modelled as byte strings
    ([string] of the Standard Library); [QString::toLower] and the
    case-insensitive regular expressions act on the ASCII letters, which is
    all that the comparisons against ASCII keywords below can observe.
    Exceptions are values of an error monad, console output and spinner or
    timer calls are events collected in a trace. *)

From Stdlib Require Import String Ascii List Bool Arith ZArith Lia.
From ExtLib Require Import Structures.Monad Structures.MonadExc.
From ExtLib Require Import Data.Monads.EitherMonad.
Import ListNotations.
Import MonadNotation.
Local Open Scope list_scope.
Local Open Scope string_scope.
Local Open Scope monad_scope.

(** ** Strings *)

Module Str.

(** The line feed written ["\n"] in the C++ sources. *)
Definition nl : string := String (ascii_of_nat 10) EmptyString.

(** The carriage return written ["\r"] in the C++ sources. *)
Definition cr : string := String (ascii_of_nat 13) EmptyString.

Definition is_empty (s : string) : bool :=
  match s with
  | EmptyString => true
  | String _ _ => false
  end.

(** Lower-casing of one character: the letters [A]..[Z] move to [a]..[z]. *)
Definition lower_ascii (c : ascii) : ascii :=
  let n := nat_of_ascii c in
  if Nat.leb 65 n && Nat.leb n 90 then ascii_of_nat (n + 32) else c.

(** [QString::toLower]. *)
Fixpoint toLower (s : string) : string :=
  match s with
  | EmptyString => EmptyString
  | String c s' => String (lower_ascii c) (toLower s')
  end.

(** [fields sep s] cuts [s] at every [sep]: the first field and the list of
    the following ones. Empty fields are kept. *)
Fixpoint fields (sep : ascii) (s : string) : string * list string :=
  match s with
  | EmptyString => (EmptyString, [])
  | String c s' =>
      let (f, fs) := fields sep s' in
      if Ascii.eqb c sep then (EmptyString, f :: fs) else (String c f, fs)
  end.

(** [QString::split(sep, QString::KeepEmptyParts)]. *)
Definition split_keep (sep : ascii) (s : string) : list string :=
  let (f, fs) := fields sep s in f :: fs.

(** [QString::split(sep, QString::SkipEmptyParts)]. *)
Definition split (sep : ascii) (s : string) : list string :=
  filter (fun f => negb (is_empty f)) (split_keep sep s).

(** [contains c s]: the character [c] occurs in [s]. *)
Fixpoint contains (c : ascii) (s : string) : bool :=
  match s with
  | EmptyString => false
  | String d s' => Ascii.eqb d c || contains c s'
  end.

(** [is_prefix p s]: [s] starts with [p]. *)
Fixpoint is_prefix (p s : string) : bool :=
  match p, s with
  | EmptyString, _ => true
  | String a p', String b s' => Ascii.eqb a b && is_prefix p' s'
  | String _ _, EmptyString => false
  end.

(** [includes v s]: [v] occurs in [s] as a run of consecutive characters. *)
Fixpoint includes (v s : string) : bool :=
  is_prefix v s ||
  match s with
  | EmptyString => false
  | String _ s' => includes v s'
  end.

(** [join sep l]: the elements of [l] with [sep] between them. *)
Fixpoint join (sep : ascii) (l : list string) : string :=
  match l with
  | [] => EmptyString
  | [x] => x
  | x :: l' => x ++ String sep (join sep l')
  end.

End Str.

(** ** The network-option parser of the launch command *)

(** [mp::LaunchRequest_NetworkOptions_Mode]. *)
Inductive LaunchRequest_NetworkOptions_Mode : Type :=
| LaunchRequest_NetworkOptions_Mode_AUTO
| LaunchRequest_NetworkOptions_Mode_MANUAL.

(** [multipass::LaunchRequest_NetworkOptions]: the message built by
    [net_digest]. *)
Record LaunchRequest_NetworkOptions : Type := mkNetworkOptions {
  id : string;
  mode : LaunchRequest_NetworkOptions_Mode;
  mac_address : string
}.

(** A freshly constructed message: no id, no hardware address, and the mode
    that the help text of [--network] documents as the default
    (["mode: auto|manual (default: auto)"]). *)
Definition fresh_net : LaunchRequest_NetworkOptions :=
  {| id := EmptyString;
     mode := LaunchRequest_NetworkOptions_Mode_AUTO;
     mac_address := EmptyString |}.

Definition set_id (net : LaunchRequest_NetworkOptions) (v : string) :=
  {| id := v; mode := mode net; mac_address := mac_address net |}.

Definition set_mode (net : LaunchRequest_NetworkOptions)
    (m : LaunchRequest_NetworkOptions_Mode) :=
  {| id := id net; mode := m; mac_address := mac_address net |}.

Definition set_mac_address (net : LaunchRequest_NetworkOptions) (v : string) :=
  {| id := id net; mode := mode net; mac_address := v |}.

(** [mp::ValidationException], with the text that [what()] returns. *)
Inductive ValidationException : Type :=
| ValidationError (what : string).

(** A computation that returns an [A] or throws a [ValidationException]. *)
Definition Checked (A : Type) : Type := sum ValidationException A.

#[global] Instance Monad_Checked : Monad Checked :=
  Monad_either ValidationException.

#[global] Instance Exception_Checked : MonadExc ValidationException Checked :=
  Exception_either ValidationException.

Definition throw {A : Type} (what : string) : Checked A :=
  raise (ValidationError what).

Definition throws {A : Type} (c : Checked A) : Prop :=
  exists what, c = inl (ValidationError what).

Definition returns {A : Type} (c : Checked A) (a : A) : Prop := c = inr a.

(** [checked_mode], launch.cpp lines 55-63. *)
Definition checked_mode (mode : string)
  : Checked LaunchRequest_NetworkOptions_Mode :=
  if String.eqb mode "auto" then ret LaunchRequest_NetworkOptions_Mode_AUTO
  else if String.eqb mode "manual" then ret LaunchRequest_NetworkOptions_Mode_MANUAL
  else throw ("Bad network mode '" ++ mode ++ "', need 'auto' or 'manual'").

Section NetDigest.

(** [mpu::valid_mac_address] is declared in [multipass/utils.h], which is not
    among the sources: the parser is modelled for any such predicate. *)
Variable valid_mac_address : string -> bool.

(** [checked_mac], launch.cpp lines 65-71. *)
Definition checked_mac (mac : string) : Checked string :=
  if negb (valid_mac_address mac)
  then throw ("Invalid MAC address: " ++ mac)
  else ret mac.

(** The body of the loop of [net_digest], lines 79-100: [split_size] is
    [split.size()], [net] the message built so far. *)
Definition digest_pair (split_size : nat) (net : LaunchRequest_NetworkOptions)
    (key_value_pair : string) : Checked LaunchRequest_NetworkOptions :=
  let key_value_split := Str.split "=" key_value_pair in
  match key_value_split with
  | [k; val] =>
      let key := Str.toLower k in
      if String.eqb key "name" then ret (set_id net val)
      else if String.eqb key "mode" then
        m <- checked_mode (Str.toLower val) ;; ret (set_mode net m)
      else if String.eqb key "mac" then
        mac <- checked_mac val ;; ret (set_mac_address net mac)
      else throw ("Bad network field: " ++ key)
  | [tok] =>
      if Nat.eqb split_size 1 then ret (set_id net tok)
      else throw ("Bad network field definition: " ++ key_value_pair)
  | _ => throw ("Bad network field definition: " ++ key_value_pair)
  end.

(** The [for] loop of [net_digest] over the comma-separated pairs. *)
Fixpoint digest_loop (split_size : nat) (net : LaunchRequest_NetworkOptions)
    (pairs : list string) : Checked LaunchRequest_NetworkOptions :=
  match pairs with
  | [] => ret net
  | key_value_pair :: rest =>
      net' <- digest_pair split_size net key_value_pair ;;
      digest_loop split_size net' rest
  end.

(** [net_digest], launch.cpp lines 73-107. *)
Definition net_digest (options : string) : Checked LaunchRequest_NetworkOptions :=
  let split := Str.split "," options in
  net <- digest_loop (length split) fresh_net split ;;
  if Str.is_empty (id net)
  then throw "Bad network definition, need at least a 'name' field"
  else ret net.

End NetDigest.

(** ** The call-backs of [cmd::Launch::request_launch] *)

(** [OptInStatus]: the three answers that [on_success] can record. *)
Inductive OptInStatus : Type :=
| ACCEPTED
| DENIED
| LATER.

(** [mp::LaunchRequest], the member [request] of the command. The field
    [opt_in_reply] is [None] as long as [mutable_opt_in_reply()] was never
    called on the request. *)
Record LaunchRequest : Type := mkLaunchRequest {
  instance_name : string;
  image : string;
  remote_name : string;
  num_cores : Z;
  mem_size : string;
  disk_space : string;
  cloud_init_user_data : string;
  network_options : list LaunchRequest_NetworkOptions;
  time_zone : string;
  timeout : Z;
  verbosity_level : Z;
  opt_in_reply : option OptInStatus
}.

(** [request.mutable_opt_in_reply()->set_opt_in_status(status)]. *)
Definition set_opt_in_status (r : LaunchRequest) (status : OptInStatus) :=
  {| instance_name := instance_name r; image := image r;
     remote_name := remote_name r; num_cores := num_cores r;
     mem_size := mem_size r; disk_space := disk_space r;
     cloud_init_user_data := cloud_init_user_data r;
     network_options := network_options r; time_zone := time_zone r;
     timeout := timeout r; verbosity_level := verbosity_level r;
     opt_in_reply := Some status |}.

(** The kinds of a progress update, the keys of [progress_messages]. *)
Inductive LaunchProgress_ProgressTypes : Type :=
| LaunchProgress_ProgressTypes_IMAGE
| LaunchProgress_ProgressTypes_KERNEL
| LaunchProgress_ProgressTypes_INITRD
| LaunchProgress_ProgressTypes_EXTRACT
| LaunchProgress_ProgressTypes_VERIFY
| LaunchProgress_ProgressTypes_WAITING.

Record LaunchProgress : Type := mkLaunchProgress {
  type : LaunchProgress_ProgressTypes;
  percent_complete : string
}.

(** [mp::LaunchReply::CreateOneofCase] together with the member it selects. *)
Inductive CreateOneof : Type :=
| kLaunchProgress (launch_progress : LaunchProgress)
| kCreateMessage (create_message : string)
| CREATE_ONEOF_NOT_SET.

(** [mp::LaunchReply]. [update_available] and [update_notice] stand for
    [update_available(reply.update_info())] and
    [update_notice(reply.update_info())]: both functions live in
    [common_cli], outside the sources. *)
Record LaunchReply : Type := mkLaunchReply {
  log_line : string;
  create_oneof : CreateOneof;
  reply_message : string;
  metrics_pending : bool;
  has_host_info : bool;
  vm_instance_name : string;
  update_available : bool;
  update_notice : string
}.

(** What the client does to the outside world, in order. *)
Inductive Event : Type :=
| Cout (text : string)
| Flush
| SpinnerStop
| SpinnerStart (message : string)
| SpinnerPrint (line : string)
| TimerPause
| TimerResume.

(** The state that the call-backs read and write: the request, the terminal
    (whether it is live, and the lines still to be read from its input) and
    whether a timer was made. *)
Record Client : Type := mkClient {
  request : LaunchRequest;
  is_live : bool;
  cin : list string;
  timer : bool
}.

(** A case-insensitive [std::regex_match] against an alternation of
    literals, given in lower case. *)
Definition regex_match (answer : string) (alternatives : list string) : bool :=
  existsb (String.eqb (Str.toLower answer)) alternatives.

Definition yes : list string := ["y"; "yes"].
Definition no : list string := ["n"; "no"].
Definition later : list string := ["l"; "later"].
Definition show : list string := ["s"; "show"].

Definition question (host_info : bool) : string :=
  "One quick question before we launch … Would you like to help" ++ Str.nl ++
  "the Multipass developers, by sending anonymous usage data?" ++ Str.nl ++
  "This includes your operating system, which images you use," ++ Str.nl ++
  "the number of instances, their properties and how long you use them." ++ Str.nl ++
  "We’d also like to measure Multipass’s speed." ++ Str.nl ++ Str.nl ++
  (if host_info
   then "Choose “show” to see an example usage report." ++ Str.nl ++ Str.nl ++
        "Send usage data (yes/no/Later/show)? "
   else "Send usage data (yes/no/Later)? ").

(** The [while (true)] loop of [on_success], lines 361-392, over the lines
    that the terminal still holds. At the end of the input [std::getline]
    leaves [answer] empty, which the loop takes for "later". The result is
    the status recorded, what was printed, and the lines left unread. *)
Fixpoint ask (host_info : bool) (input : list string)
  : OptInStatus * list Event * list string :=
  match input with
  | [] => (LATER, [], [])
  | answer :: rest =>
      if regex_match answer yes then
        (ACCEPTED, [Cout ("Thank you!" ++ Str.nl)], rest)
      else if regex_match answer no then (DENIED, [], rest)
      else if Str.is_empty answer || regex_match answer later then
        (LATER, [], rest)
      else if host_info && regex_match answer show then
        let '(status, printed, unread) := ask host_info rest in
        (status,
         Cout ("Show metrics example here" ++ Str.nl ++ Str.nl ++
               "Send usage data (yes/no/Later/show)? ") :: printed,
         unread)
      else
        let '(status, printed, unread) := ask host_info rest in
        (status,
         Cout (if host_info then "Please answer yes/no/Later/show: "
               else "Please answer yes/no/Later: ") :: printed,
         unread)
  end.

Inductive ReturnCode : Type :=
| Ok.

(** How a call-back ends: with a return code, or with
    [return request_launch(parser)], which sends the request again. *)
Inductive Next : Type :=
| Return (code : ReturnCode)
| RequestLaunch.

Definition when (b : bool) (events : list Event) : list Event :=
  if b then events else [].

(** [on_success], launch.cpp lines 342-409. *)
Definition on_success (c : Client) (reply : LaunchReply)
  : list Event * Client * Next :=
  if metrics_pending reply then
    let '(events, c') :=
      if is_live c then
        let '(status, printed, unread) := ask (has_host_info reply) (cin c) in
        ((when (timer c) [TimerPause] ++
          Cout (question (has_host_info reply)) :: printed)%list,
         {| request := set_opt_in_status (request c) status;
            is_live := is_live c; cin := unread; timer := timer c |})
      else ([], c) in
    ((SpinnerStop :: events ++ when (timer c) [TimerResume])%list,
     c', RequestLaunch)
  else
    ((SpinnerStop ::
      Cout ("Launched: " ++ vm_instance_name reply ++ Str.nl) ::
      when (is_live c && update_available reply) [Cout (update_notice reply)])%list,
     c, Return Ok).

(** [LaunchError::ErrorCodes]: the four codes that [on_failure] names, and
    any other value of the enumeration. *)
Inductive LaunchError_ErrorCodes : Type :=
| INVALID_DISK_SIZE
| INVALID_MEM_SIZE
| INVALID_HOSTNAME
| INVALID_NETWORK
| OTHER_ERROR_CODE.

(** [grpc::Status]: its message and the [LaunchError] parsed from its
    [error_details()]. *)
Record Status : Type := mkStatus {
  error_message : string;
  error_codes : list LaunchError_ErrorCodes
}.

(** One turn of the loop of [on_failure], lines 418-438. *)
Definition describe_error (request : LaunchRequest) (error_details : string)
    (error : LaunchError_ErrorCodes) : string :=
  match error with
  | INVALID_DISK_SIZE =>
      "Invalid disk size value supplied: " ++ disk_space request ++ "."
  | INVALID_MEM_SIZE =>
      "Invalid memory size value supplied: " ++ mem_size request ++ "."
  | INVALID_HOSTNAME =>
      "Invalid instance name supplied: " ++ instance_name request
  | INVALID_NETWORK => "Invalid network options supplied"
  | OTHER_ERROR_CODE => error_details
  end.

(** The call [standard_failure_handler_for(name(), cerr, status,
    error_details)] that ends [on_failure]; the handler itself lives in
    [common_cli], outside the sources. *)
Record FailureReport : Type := standard_failure_handler_for {
  command : string;
  status : Status;
  error_details : string
}.

(** [cmd::Launch::name]. *)
Definition name : string := "launch".

(** [on_failure], launch.cpp lines 411-441. *)
Definition on_failure (c : Client) (status : Status)
  : list Event * FailureReport :=
  ([SpinnerStop],
   standard_failure_handler_for name status
     (fold_left (describe_error (request c)) (error_codes status) EmptyString)).

(** The table [progress_messages] of [streaming_callback]. *)
Definition progress_messages : list (LaunchProgress_ProgressTypes * string) :=
  [(LaunchProgress_ProgressTypes_IMAGE, "Retrieving image: ");
   (LaunchProgress_ProgressTypes_KERNEL, "Retrieving kernel image: ");
   (LaunchProgress_ProgressTypes_INITRD, "Retrieving initrd image: ");
   (LaunchProgress_ProgressTypes_EXTRACT, "Extracting image: ");
   (LaunchProgress_ProgressTypes_VERIFY, "Verifying image: ");
   (LaunchProgress_ProgressTypes_WAITING, "Preparing image: ")].

Definition ProgressTypes_eqb (a b : LaunchProgress_ProgressTypes) : bool :=
  match a, b with
  | LaunchProgress_ProgressTypes_IMAGE, LaunchProgress_ProgressTypes_IMAGE
  | LaunchProgress_ProgressTypes_KERNEL, LaunchProgress_ProgressTypes_KERNEL
  | LaunchProgress_ProgressTypes_INITRD, LaunchProgress_ProgressTypes_INITRD
  | LaunchProgress_ProgressTypes_EXTRACT, LaunchProgress_ProgressTypes_EXTRACT
  | LaunchProgress_ProgressTypes_VERIFY, LaunchProgress_ProgressTypes_VERIFY
  | LaunchProgress_ProgressTypes_WAITING, LaunchProgress_ProgressTypes_WAITING =>
      true
  | _, _ => false
  end.

(** [map[key]] of a [std::unordered_map] to strings: the value stored under
    [key], or the empty string that [operator[]] inserts for a new key. *)
Fixpoint at_key (map : list (LaunchProgress_ProgressTypes * string))
    (key : LaunchProgress_ProgressTypes) : string :=
  match map with
  | [] => EmptyString
  | (k, v) :: map' => if ProgressTypes_eqb k key then v else at_key map' key
  end.

(** [streaming_callback], launch.cpp lines 443-482. *)
Definition streaming_callback (reply : LaunchReply) : list Event :=
  (when (negb (Str.is_empty (log_line reply))) [SpinnerPrint (log_line reply)] ++
   match create_oneof reply with
   | kLaunchProgress progress =>
       let progress_message := at_key progress_messages (type progress) in
       if negb (String.eqb (percent_complete progress) "-1") then
         [SpinnerStop; Cout Str.cr;
          Cout (progress_message ++ percent_complete progress ++ "%"); Flush]
       else [SpinnerStop; SpinnerStart progress_message]
   | kCreateMessage create_message =>
       [SpinnerStop; SpinnerStart create_message]
   | CREATE_ONEOF_NOT_SET =>
       when (negb (Str.is_empty (reply_message reply)))
         [SpinnerStop; SpinnerStart (reply_message reply)]
   end)%list.

(** ** Backend selection *)

Module Platform.

(** The concrete factories that the tests of [vm_backend] expect. *)
Inductive Backend : Type :=
| QemuVirtualMachineFactory
| LibVirtVirtualMachineFactory
| LXDVirtualMachineFactory.

(** A constructed [VirtualMachineFactory]: its concrete type and the
    directory it was given. *)
Record VirtualMachineFactory : Type := mkFactory {
  backend : Backend;
  data_dir : string
}.

(** The [std::runtime_error] that [vm_backend] throws. *)
Inductive runtime_error : Type :=
| UnsupportedDriver (driver : string).

(** What the tests set up around [vm_backend]: the value of the driver
    setting ([setup_driver_settings], [None] when the driver given is empty)
    and the process environment, which holds [mp::driver_env_var] among
    others. *)
Record Host : Type := mkHost {
  driver_setting : option string;
  environment : list (string * string)
}.

(** [mpt::SetEnvScope env(var, value)]. *)
Definition set_env (var value : string) (h : Host) : Host :=
  {| driver_setting := driver_setting h;
     environment := (var, value) :: environment h |}.

(** Modelled from the spec: the backends compiled in on Linux.
    [platform_linux.cpp] is not among the sources; section 4.2 speaks of "a
    fixed set of supported hypervisor backends", and the driver names and
    factory types are those of the tests [test_explicit_qemu_driver_...],
    [test_libvirt_driver_...] and [test_lxd_driver_...]. *)
Definition compiled_in : list (string * Backend) :=
  [("qemu", QemuVirtualMachineFactory);
   ("libvirt", LibVirtVirtualMachineFactory);
   ("lxd", LXDVirtualMachineFactory)].

(** Modelled from the spec: the driver in force, the configured one or the
    default, which [test_default_qemu_driver_produces_correct_factory] fixes
    as qemu. The settings store is not among the sources. *)
Definition driver (h : Host) : string :=
  match driver_setting h with
  | Some d => d
  | None => "qemu"
  end.

(** Modelled from the spec: [mp::platform::is_backend_supported], absent
    from the sources: the selector names one of the compiled-in backends. *)
Definition is_backend_supported (selector : string) : bool :=
  existsb (fun entry => String.eqb selector (fst entry)) compiled_in.

(** Modelled from the spec: [mp::platform::vm_backend], absent from the
    sources. Section 4.2: "given a backend selector and a cache/working
    directory, produce a VirtualMachine builder bound to that backend.
    Construction fails with an unsupported-backend condition if the selector
    does not match any compiled-in backend"; section 9: "the Factory is a
    simple switch over the backend identifier". *)
Fixpoint select (selector : string) (table : list (string * Backend))
  : option Backend :=
  match table with
  | [] => None
  | (n, b) :: table' =>
      if String.eqb selector n then Some b else select selector table'
  end.

(** Modelled from the spec: see [select]. *)
Definition vm_backend (h : Host) (dir : string)
  : sum runtime_error VirtualMachineFactory :=
  match select (driver h) compiled_in with
  | Some b => inr {| backend := b; data_dir := dir |}
  | None => inl (UnsupportedDriver (driver h))
  end.

(** The directory that the tests hand to [vm_backend]. *)
Definition backend_path : string := "/tmp".

(** [aux_test_driver_factory<VMFactoryType>]: [vm_backend] does not throw
    and the factory it returns is of the expected type. *)
Definition produces (h : Host) (b : Backend) : Prop :=
  exists factory, vm_backend h backend_path = inr factory /\ backend factory = b.

(** The name under which a backend is selected. *)
Definition selector_of (b : Backend) : string :=
  match b with
  | QemuVirtualMachineFactory => "qemu"
  | LibVirtVirtualMachineFactory => "libvirt"
  | LXDVirtualMachineFactory => "lxd"
  end.

End Platform.

(** ** The virtual-machine contract *)

Module VM.

(** Modelled from the spec: [VirtualMachine::State], whose declaration in
    [multipass/virtual_machine.h] is not among the sources; the states are
    those of section 4.1. *)
Inductive State : Type :=
| off
| starting
| running
| stopping
| stopped
| suspending
| suspended
| restarting
| delayed_shutdown
| unknown.

(** Modelled from the spec: what [stop] asks of the hypervisor, after
    section 4.1: a graceful shutdown, time for the guest, a forced power
    off. *)
Inductive BackendCall : Type :=
| RequestShutdown
| AwaitGuest
| PowerOff.

(** Modelled from the spec: the fields of a [VirtualMachine] named in
    section 3, its name, its current state and the suspend-status flag (the
    member [update_suspend_status] of [libvirt_virtual_machine.h]). *)
Record VirtualMachine : Type := mkVM {
  vm_name : string;
  state : State;
  update_suspend_status : bool
}.

Inductive Outcome : Type :=
| Success
| BackendFailure.

Definition with_state (vm : VirtualMachine) (s : State) : VirtualMachine :=
  {| vm_name := vm_name vm; state := s;
     update_suspend_status := update_suspend_status vm |}.

(** [current_state()], which returns the last known state. *)
Definition current_state (vm : VirtualMachine) : State := state vm.

(** Modelled from the spec: [stop(force)]. The sources hold only its
    declaration ([libvirt_virtual_machine.h]) and its mock
    ([mock_virtual_machine.h]). Section 4.1: "requests graceful shutdown; if
    force is false, allows the guest time to shut down cleanly before the
    backend forcibly powers off; on success reaches stopped", and "stop() on
    an already-stopped machine is a no-op success". [backend_ok] says
    whether the hypervisor carries out what it is asked. *)
Definition stop (force : bool) (backend_ok : bool) (vm : VirtualMachine)
  : Outcome * VirtualMachine * list BackendCall :=
  match state vm with
  | stopped => (Success, vm, [])
  | _ =>
      let calls :=
        (RequestShutdown :: (if force then [] else [AwaitGuest]) ++ [PowerOff])%list in
      if backend_ok then (Success, with_state vm stopped, calls)
      else (BackendFailure, vm, calls)
  end.

End VM.

(** ** Cancellation of downloads *)

Module Downloader.

(** [URLDownloader], as far as cancellation goes: the member
    [std::atomic_bool abort_download{false}] of [url_downloader.h]. *)
Record URLDownloader : Type := mkDownloader {
  abort_download : bool
}.

(** The constructors leave the flag at its initialiser. *)
Definition make : URLDownloader := {| abort_download := false |}.

(** Modelled from the spec: [abort_all_downloads()], declared in
    [url_downloader.h] and defined in [url_downloader.cpp], which is not
    among the sources. Section 4.4: "sets a shared cancellation flag". *)
Definition abort_all_downloads (d : URLDownloader) : URLDownloader :=
  {| abort_download := true |}.

(** Modelled from the spec: one call of [download_to] or [download], whose
    bodies are not among the sources: in flight with the chunks received and
    those still to come, completed with what it received, or failed with the
    cancellation condition, its partial output released (section 4.4). *)
Inductive Download : Type :=
| InFlight (received remaining : nat)
| Completed (received : nat)
| Cancelled.

(** Modelled from the spec: one turn of a download loop, which is not among
    the sources. Section 4.4: "each download loop checks the flag between
    chunks and aborts with a cancellation condition, releasing partial
    output". *)
Definition turn (d : URLDownloader) (x : Download) : Download :=
  match x with
  | InFlight received remaining =>
      if abort_download d then Cancelled
      else match remaining with
           | O => Completed received
           | S remaining' => InFlight (S received) remaining'
           end
  | Completed received => Completed received
  | Cancelled => Cancelled
  end.

(** Modelled from the spec: a downloader instance and the downloads running
    on it, on as many threads (section 5: the downloader "is shared across
    concurrently running pipelines"). The flag is a [std::atomic_bool], so
    what the threads do is an interleaving of the steps below. *)
Record Instance : Type := mkInstance {
  downloader : URLDownloader;
  downloads : list Download
}.

(** [advance i l]: the download at position [i] of [l] takes a turn. *)
Fixpoint advance (d : URLDownloader) (i : nat) (l : list Download)
  : list Download :=
  match l, i with
  | [], _ => []
  | x :: l', O => turn d x :: l'
  | x :: l', S i' => x :: advance d i' l'
  end.

(** Modelled from the spec: what can happen next on an instance: a download
    begins, the download at some position takes a turn of its loop, or some
    component calls [abort_all_downloads()]. *)
Inductive Action : Type :=
| Begin (chunks : nat)
| Chunk (i : nat)
| AbortAll.

Definition step (a : Action) (s : Instance) : Instance :=
  match a with
  | Begin chunks =>
      {| downloader := downloader s;
         downloads := (downloads s ++ [InFlight 0 chunks])%list |}
  | Chunk i =>
      {| downloader := downloader s;
         downloads := advance (downloader s) i (downloads s) |}
  | AbortAll =>
      {| downloader := abort_all_downloads (downloader s);
         downloads := downloads s |}
  end.

(** A schedule is run from left to right. *)
Definition run (schedule : list Action) (s : Instance) : Instance :=
  fold_left (fun s a => step a s) schedule s.

Definition is_completed (x : Download) : bool :=
  match x with
  | Completed _ => true
  | _ => false
  end.

Definition is_in_flight (x : Download) : bool :=
  match x with
  | InFlight _ _ => true
  | _ => false
  end.

End Downloader.

(** ** Option strings written out from their fields *)

Module Utils.

Definition is_hex (c : ascii) : bool :=
  let n := nat_of_ascii c in
  (Nat.leb 48 n && Nat.leb n 57) ||
  (Nat.leb 65 n && Nat.leb n 70) ||
  (Nat.leb 97 n && Nat.leb n 102).

Definition is_separator (c : ascii) : bool :=
  Ascii.eqb c ":" || Ascii.eqb c "-".

(** [octets n s]: [s] is one octet of two hexadecimal digits followed by
    [n] more, each after a separator. *)
Fixpoint octets (n : nat) (s : string) : bool :=
  match s with
  | String a (String b rest) =>
      is_hex a && is_hex b &&
      match n, rest with
      | O, EmptyString => true
      | S n', String sep rest' => is_separator sep && octets n' rest'
      | _, _ => false
      end
  | _ => false
  end.

(** Modelled from the spec: [mpu::valid_mac_address], declared in
    [multipass/utils.h], which is not among the sources. Section 3: a MAC
    address is "validated against standard 6-octet colon/hyphen hex
    format". *)
Definition valid_mac_address (mac : string) : bool := octets 5 mac.

End Utils.

(** One [key=value] pair of a network option, with its key in the spelling of
    the help text. *)
Inductive Field : Type :=
| Name (value : string)
| Mode (value : LaunchRequest_NetworkOptions_Mode)
| Mac (value : string).

Definition write_field (f : Field) : string :=
  match f with
  | Name v => "name=" ++ v
  | Mode LaunchRequest_NetworkOptions_Mode_AUTO => "mode=auto"
  | Mode LaunchRequest_NetworkOptions_Mode_MANUAL => "mode=manual"
  | Mac v => "mac=" ++ v
  end.

(** The option string [f1,f2,...,fn]. *)
Definition write_fields (fs : list Field) : string :=
  Str.join "," (map write_field fs).

(** What a pair does to the message once it is accepted. *)
Definition apply_field (net : LaunchRequest_NetworkOptions) (f : Field) :=
  match f with
  | Name v => set_id net v
  | Mode m => set_mode net m
  | Mac v => set_mac_address net v
  end.

(** A value that can stand in a pair: not empty, and without [,] or [=]. *)
Definition is_token (s : string) : bool :=
  negb (Str.is_empty s) && negb (Str.contains "," s) &&
  negb (Str.contains "=" s).

Definition well_formed (valid_mac_address : string -> bool) (f : Field) : bool :=
  match f with
  | Name v => is_token v
  | Mode _ => true
  | Mac v => is_token v && valid_mac_address v
  end.

(** The value of the last [name] pair, if there is one. *)
Fixpoint last_name (fs : list Field) : option string :=
  match fs with
  | [] => None
  | f :: fs' =>
      match last_name fs' with
      | Some v => Some v
      | None => match f with Name v => Some v | _ => None end
      end
  end.

(** The number of [name] pairs. *)
Fixpoint count_names (fs : list Field) : nat :=
  match fs with
  | [] => 0
  | Name _ :: fs' => S (count_names fs')
  | _ :: fs' => count_names fs'
  end.

(** ** Network options written back *)

(** The pairs that spell out a message: its name, its mode, and its hardware
    address when it has one. *)
Definition fields_of (net : LaunchRequest_NetworkOptions) : list Field :=
  Name (id net) :: Mode (mode net) ::
  (if Str.is_empty (mac_address net) then [] else [Mac (mac_address net)]).

(** The value of the last [mode] pair, if there is one. *)
Fixpoint last_mode (fs : list Field)
  : option LaunchRequest_NetworkOptions_Mode :=
  match fs with
  | [] => None
  | f :: fs' =>
      match last_mode fs' with
      | Some m => Some m
      | None => match f with Mode m => Some m | _ => None end
      end
  end.

(** The value of the last [mac] pair, if there is one. *)
Fixpoint last_mac (fs : list Field) : option string :=
  match fs with
  | [] => None
  | f :: fs' =>
      match last_mac fs' with
      | Some v => Some v
      | None => match f with Mac v => Some v | _ => None end
      end
  end.

(** A key and a value as they are typed: [key=value]. *)
Definition write_pair (kv : string * string) : string :=
  fst kv ++ String "=" (snd kv).

(** The same pair with its key in lower case, and its value too when the key
    is [mode]. *)
Definition lower_pair (kv : string * string) : string * string :=
  (Str.toLower (fst kv),
   if String.eqb (Str.toLower (fst kv)) "mode" then Str.toLower (snd kv)
   else snd kv).

(** What holds of the message all along the loop of [net_digest]: its id is
    not set yet or can stand in a pair, and so can its hardware address,
    which is valid besides. *)
Definition digested (valid_mac_address : string -> bool)
    (net : LaunchRequest_NetworkOptions) : Prop :=
  (Str.is_empty (id net) = true \/ is_token (id net) = true) /\
  (Str.is_empty (mac_address net) = true \/
   is_token (mac_address net) = true /\
   valid_mac_address (mac_address net) = true).

(** ** The arguments of the launch command *)

(** The members of [QString] that [parse_args] uses on the image argument. *)
Module QString.

(** [s.count(c)]: how many times [c] occurs in [s]. *)
Fixpoint count (c : ascii) (s : string) : nat :=
  match s with
  | EmptyString => 0
  | String d s' => (if Ascii.eqb d c then 1 else 0) + count c s'
  end.

(** [s.startsWith(prefix)]. *)
Definition startsWith (s prefix : string) : bool := Str.is_prefix prefix s.

(** [s.section(sep, start, end)] with the default flags: the fields from
    [start] to [end], both counted from the right when negative, with the
    separators between them. *)
Definition section (sep : ascii) (start end_ : Z) (s : string) : string :=
  let sections := Str.split_keep sep s in
  let size := Z.of_nat (length sections) in
  let start' := if Z.ltb start 0 then Z.add start size else start in
  let end' := if Z.ltb end_ 0 then Z.add end_ size else end_ in
  if Z.geb start' size || Z.ltb end' 0 || Z.gtb start' end' then EmptyString
  else
    Str.join sep
      (firstn (Z.to_nat (Z.add end' 1) - Z.to_nat start')
         (skipn (Z.to_nat start') sections)).

End QString.

(** The setters of [mp::LaunchRequest] that [parse_args] calls. *)

Definition set_image (r : LaunchRequest) (v : string) : LaunchRequest :=
  {| instance_name := instance_name r; image := v;
     remote_name := remote_name r; num_cores := num_cores r;
     mem_size := mem_size r; disk_space := disk_space r;
     cloud_init_user_data := cloud_init_user_data r;
     network_options := network_options r; time_zone := time_zone r;
     timeout := timeout r; verbosity_level := verbosity_level r;
     opt_in_reply := opt_in_reply r |}.

Definition set_remote_name (r : LaunchRequest) (v : string) : LaunchRequest :=
  {| instance_name := instance_name r; image := image r; remote_name := v;
     num_cores := num_cores r; mem_size := mem_size r;
     disk_space := disk_space r;
     cloud_init_user_data := cloud_init_user_data r;
     network_options := network_options r; time_zone := time_zone r;
     timeout := timeout r; verbosity_level := verbosity_level r;
     opt_in_reply := opt_in_reply r |}.

Definition set_instance_name (r : LaunchRequest) (v : string) : LaunchRequest :=
  {| instance_name := v; image := image r; remote_name := remote_name r;
     num_cores := num_cores r; mem_size := mem_size r;
     disk_space := disk_space r;
     cloud_init_user_data := cloud_init_user_data r;
     network_options := network_options r; time_zone := time_zone r;
     timeout := timeout r; verbosity_level := verbosity_level r;
     opt_in_reply := opt_in_reply r |}.

Definition set_num_cores (r : LaunchRequest) (v : Z) : LaunchRequest :=
  {| instance_name := instance_name r; image := image r;
     remote_name := remote_name r; num_cores := v; mem_size := mem_size r;
     disk_space := disk_space r;
     cloud_init_user_data := cloud_init_user_data r;
     network_options := network_options r; time_zone := time_zone r;
     timeout := timeout r; verbosity_level := verbosity_level r;
     opt_in_reply := opt_in_reply r |}.

Definition set_mem_size (r : LaunchRequest) (v : string) : LaunchRequest :=
  {| instance_name := instance_name r; image := image r;
     remote_name := remote_name r; num_cores := num_cores r; mem_size := v;
     disk_space := disk_space r;
     cloud_init_user_data := cloud_init_user_data r;
     network_options := network_options r; time_zone := time_zone r;
     timeout := timeout r; verbosity_level := verbosity_level r;
     opt_in_reply := opt_in_reply r |}.

Definition set_disk_space (r : LaunchRequest) (v : string) : LaunchRequest :=
  {| instance_name := instance_name r; image := image r;
     remote_name := remote_name r; num_cores := num_cores r;
     mem_size := mem_size r; disk_space := v;
     cloud_init_user_data := cloud_init_user_data r;
     network_options := network_options r; time_zone := time_zone r;
     timeout := timeout r; verbosity_level := verbosity_level r;
     opt_in_reply := opt_in_reply r |}.

Definition set_cloud_init_user_data (r : LaunchRequest) (v : string) : LaunchRequest :=
  {| instance_name := instance_name r; image := image r;
     remote_name := remote_name r; num_cores := num_cores r;
     mem_size := mem_size r; disk_space := disk_space r;
     cloud_init_user_data := v; network_options := network_options r;
     time_zone := time_zone r; timeout := timeout r;
     verbosity_level := verbosity_level r; opt_in_reply := opt_in_reply r |}.

Definition set_timeout (r : LaunchRequest) (v : Z) : LaunchRequest :=
  {| instance_name := instance_name r; image := image r;
     remote_name := remote_name r; num_cores := num_cores r;
     mem_size := mem_size r; disk_space := disk_space r;
     cloud_init_user_data := cloud_init_user_data r;
     network_options := network_options r; time_zone := time_zone r;
     timeout := v; verbosity_level := verbosity_level r;
     opt_in_reply := opt_in_reply r |}.

Definition set_verbosity_level (r : LaunchRequest) (v : Z) : LaunchRequest :=
  {| instance_name := instance_name r; image := image r;
     remote_name := remote_name r; num_cores := num_cores r;
     mem_size := mem_size r; disk_space := disk_space r;
     cloud_init_user_data := cloud_init_user_data r;
     network_options := network_options r; time_zone := time_zone r;
     timeout := timeout r; verbosity_level := v;
     opt_in_reply := opt_in_reply r |}.

(** [request.mutable_network_options()->Add(net)]. *)
Definition add_network_option (r : LaunchRequest) (net : LaunchRequest_NetworkOptions) : LaunchRequest :=
  {| instance_name := instance_name r; image := image r;
     remote_name := remote_name r; num_cores := num_cores r;
     mem_size := mem_size r; disk_space := disk_space r;
     cloud_init_user_data := cloud_init_user_data r;
     network_options := (network_options r ++ [net])%list;
     time_zone := time_zone r; timeout := timeout r;
     verbosity_level := verbosity_level r; opt_in_reply := opt_in_reply r |}.

(** [mp::ParseCode]: the two values that [parse_args] names, and any other
    that [commandParse] may hand back. *)
Inductive ParseCode : Type :=
| ParseCode_Ok
| CommandLineError
| OtherParseCode.

(** What the argument parser holds once [commandParse] has run: its status,
    the positional arguments, and for each option whether it is set and with
    what. [networkOption] lists the values of every [--network];
    [parse_timeout] is the outcome of [mp::cmd::parse_timeout(parser)], which
    lives in [common_cli], outside the sources. *)
Record ArgParser : Type := mkArgParser {
  commandParse : ParseCode;
  positionalArguments : list string;
  nameOption : option string;
  cpusOption : option string;
  memOption : option string;
  diskOption : option string;
  cloudInitOption : option string;
  networkOption : list string;
  bridgedOption : bool;
  parse_timeout : Checked Z;
  verbosityLevel : Z
}.

(** How [parse_args] ends: it returns a code, having written [cerr], or an
    exception leaves it. Either way the member [request] is left as far as
    it was filled in. *)
Inductive ParseResult : Type :=
| Returned (cerr : list string) (request : LaunchRequest) (code : ParseCode)
| Thrown (e : ValidationException) (request : LaunchRequest).

Definition is_url (remote_image_name : string) : bool :=
  QString.startsWith remote_image_name "http://" ||
  QString.startsWith remote_image_name "https://" ||
  QString.startsWith remote_image_name "file://".

(** The image argument, launch.cpp lines 224-252: the request with its image
    and remote set, or what is written to [cerr] before
    [ParseCode::CommandLineError] is returned. *)
Definition parse_image (positional : list string) (r : LaunchRequest)
  : sum string LaunchRequest :=
  match positional with
  | [] => inr r
  | remote_image_name :: _ =>
      if is_url remote_image_name then inr (set_image r remote_image_name)
      else
        let colon_count := QString.count ":" remote_image_name in
        if Nat.ltb 1 colon_count then
          inl ("Invalid remote and source image name supplied" ++ Str.nl)
        else if Nat.eqb colon_count 1 then
          inr (set_image
                 (set_remote_name r (QString.section ":" 0 0 remote_image_name))
                 (QString.section ":" 1 (-1) remote_image_name))
        else inr (set_image r remote_image_name)
  end.

(** [if (parser->isSet(option)) request.set_field(parser->value(option))]. *)
Definition when_set {A : Type} (option_value : option A)
    (set : LaunchRequest -> A -> LaunchRequest) (r : LaunchRequest)
  : LaunchRequest :=
  match option_value with
  | Some v => set r v
  | None => r
  end.

Section ParseArgs.

(** What [parse_args] takes from outside the sources. *)

(** [mpu::valid_mac_address]. *)
Variable valid_mac_address : string -> bool.

(** [mp::bridged_network_name], a constant of [multipass/constants.h]. *)
Variable bridged_network_name : string.

(** [QString::toInt]. *)
Variable toInt : string -> Z.

(** [term->read_all_cin()]. *)
Variable read_all_cin : string.

(** [check_file.exists() && check_file.isFile()] for the file of that
    name. *)
Variable is_file : string -> bool.

(** [YAML::Dump(YAML::Load(text))] and [YAML::Dump(YAML::LoadFile(name))]:
    the text that is dumped, or the [what()] of the exception thrown. *)
Variable yaml_load : string -> sum string string.
Variable yaml_load_file : string -> sum string string.

(** The cloud-init option, lines 274-303. *)
Definition parse_cloud_init (cloud_init : option string) (r : LaunchRequest)
  : sum string LaunchRequest :=
  match cloud_init with
  | None => inr r
  | Some cloudInitFile =>
      let loaded :=
        if String.eqb cloudInitFile "-" then inr (yaml_load read_all_cin)
        else if negb (is_file cloudInitFile) then
          inl ("error: No such file: " ++ cloudInitFile ++ Str.nl)
        else inr (yaml_load_file cloudInitFile) in
      match loaded with
      | inl message => inl message
      | inr (inl what) =>
          inl ("error loading cloud-init config: " ++ what ++ Str.nl)
      | inr (inr dump) => inr (set_cloud_init_user_data r dump)
      end
  end.

(** The loop over the values of [--network], lines 312-314: each option is
    added to the request as soon as it is parsed; the first one that is
    refused ends the loop with its exception. *)
Fixpoint add_networks (nets : list string) (r : LaunchRequest)
  : ValidationException * LaunchRequest + LaunchRequest :=
  match nets with
  | [] => inr r
  | net :: nets' =>
      match net_digest valid_mac_address net with
      | inl e => inl (e, r)
      | inr parsed => add_networks nets' (add_network_option r parsed)
      end
  end.

(** [cmd::Launch::parse_args], launch.cpp lines 158-327, from the return of
    [commandParse] on. *)
Definition parse_args (parser : ArgParser) (request : LaunchRequest)
  : ParseResult :=
  match commandParse parser with
  | ParseCode_Ok =>
      if Nat.ltb 1 (length (positionalArguments parser)) then
        Returned ["Too many arguments supplied" ++ Str.nl] request
          CommandLineError
      else
        match parse_image (positionalArguments parser) request with
        | inl message => Returned [message] request CommandLineError
        | inr r1 =>
            let r2 := when_set (nameOption parser) set_instance_name r1 in
            let r3 :=
              when_set (cpusOption parser)
                (fun r v => set_num_cores r (toInt v)) r2 in
            let r4 := when_set (memOption parser) set_mem_size r3 in
            let r5 := when_set (diskOption parser) set_disk_space r4 in
            match parse_cloud_init (cloudInitOption parser) r5 with
            | inl message => Returned [message] r5 CommandLineError
            | inr r6 =>
                let bridged :=
                  if bridgedOption parser then
                    match net_digest valid_mac_address bridged_network_name with
                    | inl e => inl e
                    | inr net => inr (add_network_option r6 net)
                    end
                  else inr r6 in
                match bridged with
                | inl e => Thrown e r6
                | inr r7 =>
                    match add_networks (networkOption parser) r7 with
                    | inl (ValidationError what, r8) =>
                        Returned ["error: " ++ what ++ Str.nl] r8
                          CommandLineError
                    | inr r8 =>
                        match parse_timeout parser with
                        | inl (ValidationError what) =>
                            Returned ["error: " ++ what ++ Str.nl] r8
                              CommandLineError
                        | inr seconds =>
                            Returned []
                              (set_verbosity_level (set_timeout r8 seconds)
                                 (verbosityLevel parser))
                              ParseCode_Ok
                        end
                    end
                end
            end
        end
  | status => Returned [] request status
  end.

End ParseArgs.

(** ** Answers, error codes and replies *)

(** An answer that ends the loop of [on_success]: a yes, a no, a later or an
    empty line. *)
Definition decisive (answer : string) : bool :=
  regex_match answer yes || regex_match answer no ||
  (Str.is_empty answer || regex_match answer later).

(** The codes for which [on_failure] has a message. *)
Definition is_named (code : LaunchError_ErrorCodes) : bool :=
  match code with
  | OTHER_ERROR_CODE => false
  | _ => true
  end.

(** The last of the codes for which [on_failure] has a message. *)
Fixpoint last_named (codes : list LaunchError_ErrorCodes)
  : option LaunchError_ErrorCodes :=
  match codes with
  | [] => None
  | code :: codes' =>
      match last_named codes' with
      | Some c => Some c
      | None => if is_named code then Some code else None
      end
  end.

(** A reply with another log line. *)
Definition with_log_line (reply : LaunchReply) (line : string) : LaunchReply :=
  {| log_line := line; create_oneof := create_oneof reply;
     reply_message := reply_message reply;
     metrics_pending := metrics_pending reply;
     has_host_info := has_host_info reply;
     vm_instance_name := vm_instance_name reply;
     update_available := update_available reply;
     update_notice := update_notice reply |}.

(** A reply with another reply message. *)
Definition with_reply_message (reply : LaunchReply) (message : string)
  : LaunchReply :=
  {| log_line := log_line reply; create_oneof := create_oneof reply;
     reply_message := message;
     metrics_pending := metrics_pending reply;
     has_host_info := has_host_info reply;
     vm_instance_name := vm_instance_name reply;
     update_available := update_available reply;
     update_notice := update_notice reply |}.



(** ** Sample inputs *)

(** A request as [parse_args] leaves it for [multipass launch --network
    eth7]: nothing is set but one network option. *)
Definition sample_request : LaunchRequest :=
  {| instance_name := EmptyString; image := EmptyString;
     remote_name := EmptyString; num_cores := 0%Z;
     mem_size := EmptyString; disk_space := EmptyString;
     cloud_init_user_data := EmptyString;
     network_options :=
       [{| id := "eth7"; mode := LaunchRequest_NetworkOptions_Mode_AUTO;
           mac_address := EmptyString |}];
     time_zone := "UTC"; timeout := 0%Z; verbosity_level := 0%Z;
     opt_in_reply := None |}.

(** A client on a terminal that is not live, without a timer. *)
Definition headless_client : Client :=
  {| request := sample_request; is_live := false; cin := []; timer := false |}.

(** A client on a live terminal whose user types [maybe] and then [Yes]. *)
Definition live_client : Client :=
  {| request := sample_request; is_live := true;
     cin := ["maybe"; "Yes"]; timer := true |}.

(** A launch reply that asks for the opt-in answer. *)
Definition pending_reply : LaunchReply :=
  {| log_line := EmptyString; create_oneof := CREATE_ONEOF_NOT_SET;
     reply_message := EmptyString; metrics_pending := true;
     has_host_info := false; vm_instance_name := EmptyString;
     update_available := false; update_notice := EmptyString |}.

(** A reply that carries a progress update. *)
Definition progress_reply (kind : LaunchProgress_ProgressTypes)
    (percent : string) : LaunchReply :=
  {| log_line := EmptyString;
     create_oneof :=
       kLaunchProgress {| type := kind; percent_complete := percent |};
     reply_message := EmptyString; metrics_pending := false;
     has_host_info := false; vm_instance_name := EmptyString;
     update_available := false; update_notice := EmptyString |}.

(** A client whose request carries sizes and a name that the daemon
    refuses. *)
Definition refused_client : Client :=
  {| request :=
       {| instance_name := "bad_name"; image := EmptyString;
          remote_name := EmptyString; num_cores := 1%Z;
          mem_size := "1Q"; disk_space := "5X";
          cloud_init_user_data := EmptyString; network_options := [];
          time_zone := "UTC"; timeout := 0%Z; verbosity_level := 0%Z;
          opt_in_reply := None |};
     is_live := false; cin := []; timer := false |}.

(** The status of a launch refused for the given codes. *)
Definition refused (codes : list LaunchError_ErrorCodes) : Status :=
  {| error_message := "Invalid arguments supplied"; error_codes := codes |}.

(** The parts of what [on_success] returns. *)
Definition events_of {A B : Type} (r : list Event * A * B) : list Event :=
  fst (fst r).

Definition client_of {B : Type} (r : list Event * Client * B) : Client :=
  snd (fst r).

Definition next_of {A : Type} (r : list Event * A * Next) : Next := snd r.

Definition is_cout (e : Event) : bool :=
  match e with
  | Cout _ => true
  | _ => false
  end.

(** A request with nothing set, as the command holds it before
    [parse_args]. *)
Definition blank_request : LaunchRequest :=
  {| instance_name := EmptyString; image := EmptyString;
     remote_name := EmptyString; num_cores := 0%Z;
     mem_size := EmptyString; disk_space := EmptyString;
     cloud_init_user_data := EmptyString; network_options := [];
     time_zone := EmptyString; timeout := 0%Z; verbosity_level := 0%Z;
     opt_in_reply := None |}.

(** The arguments of [multipass launch daily:focal --name test1 --cpus 2
    --bridged --network eth0 --network name=eth1,mode=manual]. *)
Definition sample_parser : ArgParser :=
  {| commandParse := ParseCode_Ok;
     positionalArguments := ["daily:focal"];
     nameOption := Some "test1"; cpusOption := Some "2";
     memOption := None; diskOption := None; cloudInitOption := None;
     networkOption := ["eth0"; "name=eth1,mode=manual"];
     bridgedOption := true;
     parse_timeout := inr 300%Z; verbosityLevel := 0%Z |}.

(** The same with a second network whose key is not known and a third
    without a value for its mode. *)
Definition refused_parser : ArgParser :=
  {| commandParse := ParseCode_Ok;
     positionalArguments := ["daily:focal"];
     nameOption := Some "test1"; cpusOption := Some "2";
     memOption := None; diskOption := None; cloudInitOption := None;
     networkOption := ["eth0"; "colour=red"; "name=eth1,mode="];
     bridgedOption := false;
     parse_timeout := inr 300%Z; verbosityLevel := 0%Z |}.

(** [parse_args] with what it takes from outside fixed for the samples: the
    bridged network is called [bridged], every number reads as 2, no file
    exists and any text is its own YAML dump. *)
Definition sample_parse_args : ArgParser -> LaunchRequest -> ParseResult :=
  parse_args Utils.valid_mac_address "bridged" (fun _ => 2%Z) EmptyString
    (fun _ => false) (fun text => inr text) (fun text => inr text).

Definition request_of (result : ParseResult) : LaunchRequest :=
  match result with
  | Returned _ r _ => r
  | Thrown _ r => r
  end.

Definition cerr_of (result : ParseResult) : list string :=
  match result with
  | Returned cerr _ _ => cerr
  | Thrown _ _ => []
  end.

(** * Properties *)

(** ** Splitting *)

Section Splitting.

Variable sep : ascii.

Lemma fields_free (s : string) :
  Str.contains sep s = false -> Str.fields sep s = (s, []).
Proof.
  induction s as [|c s IH]; simpl; [reflexivity|].
  intros H. apply orb_false_iff in H as [Hc Hs].
  rewrite (IH Hs), Hc. reflexivity.
Qed.

Lemma fields_cut (x y : string) :
  Str.contains sep x = false ->
  Str.fields sep (x ++ String sep y) = (x, Str.split_keep sep y).
Proof.
  intros Hx. unfold Str.split_keep.
  induction x as [|c x IH]; simpl.
  - rewrite Ascii.eqb_refl. destruct (Str.fields sep y). reflexivity.
  - simpl in Hx. apply orb_false_iff in Hx as [Hc Hs].
    rewrite (IH Hs), Hc. destruct (Str.fields sep y). reflexivity.
Qed.

(** A string without the separator is its own single part. *)
Lemma split_free (s : string) :
  Str.contains sep s = false -> Str.is_empty s = false ->
  Str.split sep s = [s].
Proof.
  intros Hs Hne. unfold Str.split, Str.split_keep.
  rewrite (fields_free s Hs). simpl. rewrite Hne. reflexivity.
Qed.

(** Cutting after a first part that holds no separator. *)
Lemma split_cut (x y : string) :
  Str.contains sep x = false -> Str.is_empty x = false ->
  Str.split sep (x ++ String sep y) = x :: Str.split sep y.
Proof.
  intros Hx Hne. unfold Str.split at 1. unfold Str.split_keep at 1.
  rewrite (fields_cut x y Hx). simpl. rewrite Hne. reflexivity.
Qed.

(** Splitting undoes joining, when no part is empty or holds the
    separator. *)
Lemma split_join (l : list string) :
  Forall (fun x => Str.contains sep x = false /\ Str.is_empty x = false) l ->
  Str.split sep (Str.join sep l) = l.
Proof.
  induction 1 as [|x l [Hx Hne] Hl IH]; [reflexivity|].
  destruct l as [|y l].
  - simpl. apply split_free; assumption.
  - change (Str.join sep (x :: y :: l))
      with (x ++ String sep (Str.join sep (y :: l))).
    rewrite split_cut by assumption. rewrite IH. reflexivity.
Qed.

End Splitting.

(** ** The error monad *)

Lemma bind_returned {A B : Type} (a : A) (k : A -> Checked B) :
  bind (inr a : Checked A) k = k a.
Proof. reflexivity. Qed.

Lemma bind_thrown {A B : Type} (e : ValidationException) (k : A -> Checked B) :
  bind (inl e : Checked A) k = inl e.
Proof. reflexivity. Qed.

Lemma throw_throws {A : Type} (what : string) : throws (@throw A what).
Proof. exists what. reflexivity. Qed.

Lemma throws_bind {A B : Type} (c : Checked A) (k : A -> Checked B) :
  throws c -> throws (bind c k).
Proof. intros [what ->]. exists what. reflexivity. Qed.

Lemma throws_or_returns {A : Type} (c : Checked A) :
  throws c \/ exists a, returns c a.
Proof.
  destruct c as [[what]|a]; [left; exists what | right; exists a]; reflexivity.
Qed.

Lemma returns_not_throws {A : Type} (c : Checked A) (a : A) :
  returns c a -> ~ throws c.
Proof. intros -> [what H]. discriminate H. Qed.

(** ** The network-option parser *)

Section NetDigestFacts.

Variable valid : string -> bool.


Lemma digest_loop_app (n : nat) (net : LaunchRequest_NetworkOptions)
    (l1 l2 : list string) :
  digest_loop valid n net (l1 ++ l2)%list =
  bind (digest_loop valid n net l1) (fun net' => digest_loop valid n net' l2).
Proof.
  revert net. induction l1 as [|kv l1 IH]; intros net; simpl; [reflexivity|].
  destruct (digest_pair valid n net kv) as [e|net']; [reflexivity|].
  simpl. apply IH.
Qed.

(** A pair that is refused whatever was built so far makes the whole loop
    throw: either an earlier pair throws, or this one does. *)
Lemma digest_loop_refused (n : nat) (kv : string) (pairs : list string) :
  (forall net, throws (digest_pair valid n net kv)) ->
  In kv pairs ->
  forall net, throws (digest_loop valid n net pairs).
Proof.
  intros Hkv. induction pairs as [|p pairs IH]; intros Hin net; [destruct Hin|].
  simpl. destruct Hin as [->|Hin].
  - apply throws_bind, Hkv.
  - destruct (digest_pair valid n net p) as [[what]|net'].
    + exists what. reflexivity.
    + simpl. apply IH, Hin.
Qed.

(** [net_digest] throws as soon as one of the comma-separated parts is
    refused. *)
Lemma net_digest_refused (options kv : string) :
  In kv (Str.split "," options) ->
  (forall net, throws (digest_pair valid (length (Str.split "," options)) net kv)) ->
  throws (net_digest valid options).
Proof.
  intros Hin Hkv. unfold net_digest.
  apply throws_bind. apply digest_loop_refused with (kv := kv); assumption.
Qed.

(** The id of a returned message is never empty. *)
Lemma net_digest_id_not_empty (options : string)
    (net : LaunchRequest_NetworkOptions) :
  returns (net_digest valid options) net -> id net <> EmptyString.
Proof.
  unfold returns, net_digest.
  destruct (digest_loop _ _ _ _) as [e|net']; [discriminate|].
  rewrite bind_returned.
  destruct (Str.is_empty (id net')) eqn:E; [discriminate|].
  intros H. injection H as <-. intros Hid. rewrite Hid in E. discriminate E.
Qed.

(** C4: an option string that is one bare token, with no [=] and no [,], is
    parsed into the option whose id is that token and whose mode is auto,
    the default; no hardware address is set. *)
Theorem net_digest_bare_token (token : string) :
  token <> EmptyString ->
  Str.contains "," token = false ->
  Str.contains "=" token = false ->
  net_digest valid token =
  inr {| id := token;
         mode := LaunchRequest_NetworkOptions_Mode_AUTO;
         mac_address := EmptyString |}.
Proof.
  intros Hne Hcomma Heq.
  assert (Hempty : Str.is_empty token = false)
    by (destruct token; [contradiction Hne; reflexivity | reflexivity]).
  unfold net_digest. rewrite (split_free _ _ Hcomma Hempty). simpl.
  unfold digest_pair. rewrite (split_free _ _ Heq Hempty). simpl.
  rewrite Hempty. reflexivity.
Qed.

(** What [digest_pair] refuses, whatever was built so far. *)

Lemma unrecognized_key_refused (n : nat) (net : LaunchRequest_NetworkOptions)
    (kv k v : string) :
  Str.split "=" kv = [k; v] ->
  Str.toLower k <> "name" -> Str.toLower k <> "mode" -> Str.toLower k <> "mac" ->
  digest_pair valid n net kv =
  inl (ValidationError ("Bad network field: " ++ Str.toLower k)).
Proof.
  intros Hsplit Hname Hmode Hmac. unfold digest_pair. rewrite Hsplit.
  apply String.eqb_neq in Hname, Hmode, Hmac.
  rewrite Hname, Hmode, Hmac. reflexivity.
Qed.

Lemma bad_mode_refused (n : nat) (net : LaunchRequest_NetworkOptions)
    (kv k v : string) :
  Str.split "=" kv = [k; v] ->
  Str.toLower k = "mode" ->
  Str.toLower v <> "auto" -> Str.toLower v <> "manual" ->
  throws (digest_pair valid n net kv).
Proof.
  intros Hsplit Hk Hauto Hmanual. unfold digest_pair. rewrite Hsplit, Hk.
  apply String.eqb_neq in Hauto, Hmanual. simpl.
  unfold checked_mode. rewrite Hauto, Hmanual. apply throws_bind, throw_throws.
Qed.

Lemma bad_mac_refused (n : nat) (net : LaunchRequest_NetworkOptions)
    (kv k v : string) :
  Str.split "=" kv = [k; v] ->
  Str.toLower k = "mac" ->
  valid v = false ->
  digest_pair valid n net kv =
  inl (ValidationError ("Invalid MAC address: " ++ v)).
Proof.
  intros Hsplit Hk Hv. unfold digest_pair. rewrite Hsplit, Hk. simpl.
  unfold checked_mac. rewrite Hv. reflexivity.
Qed.

(** A part that does not split into a key and a value is refused, unless it
    splits into one piece and is the only part of the option. *)
Lemma malformed_pair_refused (n : nat) (net : LaunchRequest_NetworkOptions)
    (kv : string) :
  length (Str.split "=" kv) <> 2 ->
  length (Str.split "=" kv) <> 1 \/ n <> 1 ->
  digest_pair valid n net kv =
  inl (ValidationError ("Bad network field definition: " ++ kv)).
Proof.
  intros H2 H1. unfold digest_pair.
  destruct (Str.split "=" kv) as [|a [|b [|c l]]]; simpl in *; try reflexivity.
  - destruct H1 as [H1|H1]; [contradiction H1; reflexivity|].
    apply Nat.eqb_neq in H1. rewrite H1. reflexivity.
  - contradiction H2; reflexivity.
Qed.

(** All or nothing: an option one of whose parts has an unrecognized key, a
    mode other than auto and manual, a hardware address that is not valid,
    or no key and value to split into (the lone shorthand piece apart) is
    refused as a whole. *)
Lemma net_digest_bad_part_refused (options kv : string) :
  In kv (Str.split "," options) ->
  (exists k v, Str.split "=" kv = [k; v] /\
     (Str.toLower k <> "name" /\ Str.toLower k <> "mode" /\
      Str.toLower k <> "mac" \/
      Str.toLower k = "mode" /\ Str.toLower v <> "auto" /\
      Str.toLower v <> "manual" \/
      Str.toLower k = "mac" /\ valid v = false)) \/
  (length (Str.split "=" kv) <> 2 /\
   (length (Str.split "=" kv) <> 1 \/ length (Str.split "," options) <> 1)) ->
  throws (net_digest valid options).
Proof.
  intros Hin Hbad. apply net_digest_refused with (kv := kv); [exact Hin|].
  intros net.
  destruct Hbad as [(k & v & Hsplit & [(Hn & Hm & Hc)|[(Hk & Ha & Hm)|(Hk & Hv)]])
                   |(H2 & H1)].
  - rewrite (unrecognized_key_refused _ net kv k v Hsplit Hn Hm Hc).
    eexists; reflexivity.
  - apply (bad_mode_refused _ net kv k v Hsplit Hk Ha Hm).
  - rewrite (bad_mac_refused _ net kv k v Hsplit Hk Hv). eexists; reflexivity.
  - rewrite (malformed_pair_refused _ net kv H2 H1). eexists; reflexivity.
Qed.

(** Well-formed pairs are accepted one by one and applied in order. *)

Lemma contains_app (c : ascii) (a b : string) :
  Str.contains c (a ++ b) = Str.contains c a || Str.contains c b.
Proof.
  induction a as [|d a IH]; simpl; [reflexivity|].
  rewrite IH. apply orb_assoc.
Qed.

Lemma is_token_spec (s : string) :
  is_token s = true ->
  Str.is_empty s = false /\ Str.contains "," s = false /\
  Str.contains "=" s = false.
Proof.
  unfold is_token. intros H.
  apply andb_true_iff in H as [H H3]. apply andb_true_iff in H as [H1 H2].
  apply negb_true_iff in H1, H2, H3. auto.
Qed.

Lemma write_field_part (f : Field) :
  well_formed valid f = true ->
  Str.contains "," (write_field f) = false /\
  Str.is_empty (write_field f) = false.
Proof.
  destruct f as [v|[|]|v]; simpl; intros H; try (split; reflexivity).
  - apply is_token_spec in H as (_ & Hc & _). split; [|reflexivity].
    change ("name=" ++ v) with (String "n" (String "a" (String "m" (String "e" (String "=" v))))).
    simpl. exact Hc.
  - apply andb_true_iff in H as [H _].
    apply is_token_spec in H as (_ & Hc & _). split; [|reflexivity].
    simpl. exact Hc.
Qed.

Lemma digest_pair_write_field (n : nat) (net : LaunchRequest_NetworkOptions)
    (f : Field) :
  well_formed valid f = true ->
  digest_pair valid n net (write_field f) = inr (apply_field net f).
Proof.
  destruct f as [v|[|]|v]; simpl; intros H; try reflexivity.
  - apply is_token_spec in H as (Hne & _ & Heq).
    unfold digest_pair.
    pose proof (split_cut "=" "name" v eq_refl eq_refl) as Hcut.
    simpl in Hcut. rewrite Hcut, (split_free _ _ Heq Hne).
    reflexivity.
  - apply andb_true_iff in H as [H Hv].
    apply is_token_spec in H as (Hne & _ & Heq).
    unfold digest_pair.
    pose proof (split_cut "=" "mac" v eq_refl eq_refl) as Hcut.
    simpl in Hcut. rewrite Hcut, (split_free _ _ Heq Hne).
    simpl. unfold checked_mac. rewrite Hv. reflexivity.
Qed.

Lemma digest_loop_write_fields (n : nat) (fs : list Field) :
  Forall (fun f => well_formed valid f = true) fs ->
  forall net,
    digest_loop valid n net (map write_field fs) =
    inr (fold_left apply_field fs net).
Proof.
  induction 1 as [|f fs Hf Hfs IH]; intros net; [reflexivity|].
  simpl. rewrite (digest_pair_write_field n net f Hf). simpl. apply IH.
Qed.

Lemma split_write_fields (fs : list Field) :
  Forall (fun f => well_formed valid f = true) fs ->
  Str.split "," (write_fields fs) = map write_field fs.
Proof.
  intros H. unfold write_fields. apply split_join.
  induction H as [|f fs Hf Hfs IH]; simpl; constructor; auto.
  apply write_field_part, Hf.
Qed.

(** The id after the loop is the value of the last [name] pair. *)
Lemma id_fold_apply_field (fs : list Field) :
  forall net,
    id (fold_left apply_field fs net) =
    match last_name fs with
    | Some v => v
    | None => id net
    end.
Proof.
  induction fs as [|f fs IH]; intros net; [reflexivity|].
  simpl. rewrite IH. destruct (last_name fs); [reflexivity|].
  destruct f; reflexivity.
Qed.

Lemma last_name_In (fs : list Field) (v : string) :
  last_name fs = Some v -> In (Name v) fs.
Proof.
  induction fs as [|f fs IH]; simpl; [discriminate|].
  destruct (last_name fs) as [w|].
  - intros H. right. apply IH. exact H.
  - destruct f; try discriminate. intros H. injection H as ->. left. reflexivity.
Qed.

Lemma count_names_last_name (fs : list Field) :
  1 <= count_names fs -> exists v, last_name fs = Some v.
Proof.
  induction fs as [|f fs IH]; simpl; [lia|].
  destruct (last_name fs) as [w|] eqn:E.
  - intros _. exists w. reflexivity.
  - destruct f as [v| |]; intros H.
    + exists v. reflexivity.
    + destruct (IH H) as [v Hv]. discriminate Hv.
    + destruct (IH H) as [v Hv]. discriminate Hv.
Qed.

(** An option written from well-formed pairs, one of them a [name], is
    accepted: the pairs are applied from left to right. *)
Lemma net_digest_write_fields (fs : list Field) (v : string) :
  Forall (fun f => well_formed valid f = true) fs ->
  last_name fs = Some v ->
  net_digest valid (write_fields fs) = inr (fold_left apply_field fs fresh_net) /\
  id (fold_left apply_field fs fresh_net) = v.
Proof.
  intros Hwf Hlast.
  assert (Hid : id (fold_left apply_field fs fresh_net) = v)
    by (rewrite id_fold_apply_field, Hlast; reflexivity).
  split; [|exact Hid].
  unfold net_digest. rewrite (split_write_fields fs Hwf).
  rewrite (digest_loop_write_fields _ fs Hwf). rewrite bind_returned, Hid.
  assert (Hv : well_formed valid (Name v) = true).
  { rewrite Forall_forall in Hwf. apply Hwf, last_name_In, Hlast. }
  simpl in Hv. apply is_token_spec in Hv as (Hne & _). rewrite Hne. reflexivity.
Qed.

(** C2, as the code has it: an option string of well-formed pairs in which
    the key [name] occurs more than once is accepted, not rejected; the
    pairs are applied from left to right, so that the id of the result is
    the value of the last [name] pair. *)
Theorem net_digest_repeated_name_last_wins (fs : list Field) :
  Forall (fun f => well_formed valid f = true) fs ->
  2 <= count_names fs ->
  exists v,
    last_name fs = Some v /\
    net_digest valid (write_fields fs) = inr (fold_left apply_field fs fresh_net) /\
    id (fold_left apply_field fs fresh_net) = v.
Proof.
  intros Hwf Hcount.
  destruct (count_names_last_name fs) as [v Hv]; [lia|].
  exists v. split; [exact Hv|]. apply net_digest_write_fields; assumption.
Qed.

(** C5, at the input [name=]: the part splits at [=] into the single piece
    [name], it is the only part, and so it is taken for the shorthand: the
    option is accepted with the id [name], although the string holds a [=]
    and names no network. *)
Theorem net_digest_name_without_value :
  net_digest valid "name=" =
  inr {| id := "name";
         mode := LaunchRequest_NetworkOptions_Mode_AUTO;
         mac_address := EmptyString |}.
Proof. reflexivity. Qed.

End NetDigestFacts.

Lemma net_digest_bare_token_witness :
  net_digest Utils.valid_mac_address "mynet" =
  inr {| id := "mynet";
         mode := LaunchRequest_NetworkOptions_Mode_AUTO;
         mac_address := EmptyString |}.
Proof.
  apply (net_digest_bare_token Utils.valid_mac_address "mynet");
    [discriminate | reflexivity | reflexivity].
Defined.

(** C2, as the specification has it, fails: [name=a,name=b] is not
    rejected. *)
Lemma net_digest_repeated_name_accepted :
  ~ throws (net_digest Utils.valid_mac_address "name=a,name=b").
Proof.
  apply returns_not_throws with
    (a := {| id := "b"; mode := LaunchRequest_NetworkOptions_Mode_AUTO;
             mac_address := EmptyString |}).
  reflexivity.
Qed.

Lemma net_digest_repeated_name_last_wins_witness :
  exists v,
    last_name [Name "a"; Name "b"] = Some v /\
    net_digest Utils.valid_mac_address (write_fields [Name "a"; Name "b"]) =
    inr (fold_left apply_field [Name "a"; Name "b"] fresh_net) /\
    id (fold_left apply_field [Name "a"; Name "b"] fresh_net) = v.
Proof.
  apply (net_digest_repeated_name_last_wins Utils.valid_mac_address
           [Name "a"; Name "b"]).
  - repeat constructor.
  - simpl. lia.
Defined.

(** The examples of section 8 of the specification. *)

Example net_digest_fully_populated :
  net_digest Utils.valid_mac_address
    "name=mynet,mode=manual,mac=52:54:00:12:34:56" =
  inr {| id := "mynet"; mode := LaunchRequest_NetworkOptions_Mode_MANUAL;
         mac_address := "52:54:00:12:34:56" |}.
Proof. reflexivity. Qed.

Example net_digest_mode_alone :
  net_digest Utils.valid_mac_address "mode=manual" =
  inl (ValidationError "Bad network definition, need at least a 'name' field").
Proof. reflexivity. Qed.

Example net_digest_bad_mac :
  net_digest Utils.valid_mac_address "name=mynet,mac=52:54:00" =
  inl (ValidationError "Invalid MAC address: 52:54:00").
Proof. reflexivity. Qed.

(** Other strings with a [=] or a [,] that are taken for the shorthand. *)

Example net_digest_value_without_key :
  net_digest Utils.valid_mac_address "=eth0" =
  inr {| id := "eth0"; mode := LaunchRequest_NetworkOptions_Mode_AUTO;
         mac_address := EmptyString |}.
Proof. reflexivity. Qed.

Example net_digest_mode_without_value :
  net_digest Utils.valid_mac_address "mode=" =
  inr {| id := "mode"; mode := LaunchRequest_NetworkOptions_Mode_AUTO;
         mac_address := EmptyString |}.
Proof. reflexivity. Qed.

Example net_digest_trailing_comma :
  net_digest Utils.valid_mac_address "eth0," =
  inr {| id := "eth0"; mode := LaunchRequest_NetworkOptions_Mode_AUTO;
         mac_address := EmptyString |}.
Proof. reflexivity. Qed.

(** ** The opt-in handshake *)

(** The loop, one answer at a time. *)
Lemma ask_answer (host_info : bool) (answer : string) (rest : list string) :
  ask host_info (answer :: rest) =
  if regex_match answer yes then
    (ACCEPTED, [Cout ("Thank you!" ++ Str.nl)], rest)
  else if regex_match answer no then (DENIED, [], rest)
  else if Str.is_empty answer || regex_match answer later then (LATER, [], rest)
  else
    (fst (fst (ask host_info rest)),
     Cout (if host_info && regex_match answer show
           then "Show metrics example here" ++ Str.nl ++ Str.nl ++
                "Send usage data (yes/no/Later/show)? "
           else if host_info then "Please answer yes/no/Later/show: "
           else "Please answer yes/no/Later: ") :: snd (fst (ask host_info rest)),
     snd (ask host_info rest)).
Proof.
  cbn [ask].
  destruct (regex_match answer yes); [reflexivity|].
  destruct (regex_match answer no); [reflexivity|].
  destruct (Str.is_empty answer || regex_match answer later); [reflexivity|].
  destruct (ask host_info rest) as [[status printed] unread].
  destruct host_info; [destruct (regex_match answer show)|]; reflexivity.
Qed.

(** The loop leaves unread a tail of the input. *)
Lemma ask_unread (host_info : bool) (input : list string) :
  exists read,
    input = (read ++ snd (ask host_info input))%list.
Proof.
  induction input as [|answer rest [read IH]]; [exists []; reflexivity|].
  rewrite ask_answer.
  destruct (regex_match answer yes); [exists [answer]; reflexivity|].
  destruct (regex_match answer no); [exists [answer]; reflexivity|].
  destruct (Str.is_empty answer || regex_match answer later);
    [exists [answer]; reflexivity|].
  exists (answer :: read). cbn [snd app]. rewrite <- IH. reflexivity.
Qed.

(** The first answer that is a yes, a no, a later or an empty line decides;
    the answers before it only make the client ask again. *)
Lemma ask_decided (host_info : bool) (retries : list string)
    (answer : string) (rest : list string) :
  Forall (fun a => regex_match a yes = false /\ regex_match a no = false /\
                   Str.is_empty a || regex_match a later = false) retries ->
  regex_match answer yes || regex_match answer no ||
  (Str.is_empty answer || regex_match answer later) = true ->
  fst (fst (ask host_info (retries ++ answer :: rest)%list)) =
  fst (fst (ask host_info [answer])) /\
  snd (ask host_info (retries ++ answer :: rest)%list) = rest.
Proof.
  intros Hretries Hdecisive.
  induction Hretries as [|a retries (Hy & Hn & Hl) Hretries IH].
  - cbn [app]. rewrite !ask_answer.
    destruct (regex_match answer yes); [split; reflexivity|].
    destruct (regex_match answer no); [split; reflexivity|].
    destruct (Str.is_empty answer || regex_match answer later);
      [split; reflexivity | discriminate].
  - cbn [app]. rewrite (ask_answer host_info a), Hy, Hn, Hl. exact IH.
Qed.

(** Without a pending opt-in the reply ends the launch. *)
Lemma on_success_launched (c : Client) (reply : LaunchReply) :
  metrics_pending reply = false ->
  next_of (on_success c reply) = Return Ok /\
  client_of (on_success c reply) = c /\
  In (Cout ("Launched: " ++ vm_instance_name reply ++ Str.nl))
     (events_of (on_success c reply)).
Proof.
  intros H. unfold on_success. rewrite H. simpl. auto.
Qed.

(** C1, as the code has it: when a launch reply arrives with the opt-in
    pending, the request is sent again. On a live terminal the question is
    printed first and the status chosen by the answers read from the
    terminal is recorded in the request. On a terminal that is not live the
    handshake is skipped: nothing is printed, nothing is read, and the
    request goes out again as it was, with no opt-in status recorded. *)
Theorem on_success_metrics_pending (c : Client) (reply : LaunchReply) :
  metrics_pending reply = true ->
  next_of (on_success c reply) = RequestLaunch /\
  (is_live c = true ->
     In (Cout (question (has_host_info reply))) (events_of (on_success c reply)) /\
     opt_in_reply (request (client_of (on_success c reply))) =
       Some (fst (fst (ask (has_host_info reply) (cin c)))) /\
     cin (client_of (on_success c reply)) = snd (ask (has_host_info reply) (cin c))) /\
  (is_live c = false ->
     existsb is_cout (events_of (on_success c reply)) = false /\
     client_of (on_success c reply) = c).
Proof.
  intros Hpending. unfold on_success. rewrite Hpending.
  destruct (is_live c).
  - destruct (ask (has_host_info reply) (cin c)) as [[status printed] unread].
    simpl. split; [reflexivity|]. split; [|discriminate].
    intros _. split; [|split; reflexivity].
    right. apply in_or_app. left. apply in_or_app. right. left. reflexivity.
  - simpl. split; [reflexivity|]. split; [discriminate|].
    intros _. split; [|reflexivity].
    destruct (timer c); reflexivity.
Qed.

Lemma on_success_metrics_pending_witness :
  next_of (on_success live_client pending_reply) = RequestLaunch /\
  opt_in_reply (request (client_of (on_success live_client pending_reply))) =
    Some ACCEPTED /\
  client_of (on_success headless_client pending_reply) = headless_client.
Proof.
  pose proof (on_success_metrics_pending live_client pending_reply eq_refl)
    as (Hnext & Hlive & _).
  pose proof (on_success_metrics_pending headless_client pending_reply eq_refl)
    as (_ & _ & Hheadless).
  split; [exact Hnext|]. split.
  - destruct (Hlive eq_refl) as (_ & Hstatus & _). exact Hstatus.
  - destruct (Hheadless eq_refl) as (_ & Hsame). exact Hsame.
Defined.

(** C1, as the specification has it, fails: on a terminal that is not live
    the request is sent again without the status "later" in it. *)
Lemma on_success_headless_records_no_status :
  metrics_pending pending_reply = true /\
  is_live headless_client = false /\
  next_of (on_success headless_client pending_reply) = RequestLaunch /\
  opt_in_reply (request (client_of (on_success headless_client pending_reply)))
    <> Some LATER.
Proof. repeat split; discriminate. Qed.

(** ** The failure call-back *)

Lemma is_prefix_app (v s : string) : Str.is_prefix v (v ++ s) = true.
Proof.
  induction v as [|c v IH]; simpl; [reflexivity|].
  rewrite Ascii.eqb_refl, IH. reflexivity.
Qed.

Lemma includes_prefix (v s : string) :
  Str.is_prefix v s = true -> Str.includes v s = true.
Proof. intros H. destruct s; simpl; rewrite H; reflexivity. Qed.

Lemma includes_after (v a s : string) :
  Str.includes v s = true -> Str.includes v (a ++ s) = true.
Proof.
  intros H. induction a as [|c a IH]; simpl; [exact H|].
  rewrite IH. apply orb_true_r.
Qed.

(** A value is included in any text written around it. *)
Lemma includes_middle (v before after : string) :
  Str.includes v (before ++ v ++ after) = true.
Proof. apply includes_after, includes_prefix, is_prefix_app. Qed.

Lemma is_prefix_refl (v : string) : Str.is_prefix v v = true.
Proof.
  induction v as [|c v IH]; simpl; [reflexivity|].
  rewrite Ascii.eqb_refl, IH. reflexivity.
Qed.

Lemma includes_end (v before : string) :
  Str.includes v (before ++ v) = true.
Proof. apply includes_after, includes_prefix, is_prefix_refl. Qed.

(** What the loop over the error codes leaves is decided by the last
    code. *)
Lemma describe_last (request : LaunchRequest)
    (codes : list LaunchError_ErrorCodes) (code : LaunchError_ErrorCodes) :
  fold_left (describe_error request) (codes ++ [code])%list EmptyString =
  describe_error request
    (fold_left (describe_error request) codes EmptyString) code.
Proof. rewrite fold_left_app. reflexivity. Qed.

(** The message that [on_failure] hands to the failure handler is that of
    the last error code. For invalid-disk-size, invalid-memory-size and
    invalid-hostname it includes the disk size, the memory size and the
    instance name of the request; for invalid-network it is a fixed text
    that names no option. *)
Lemma on_failure_error_details (c : Client) (status : Status)
    (codes : list LaunchError_ErrorCodes) (code : LaunchError_ErrorCodes) :
  error_codes status = (codes ++ [code])%list ->
  match code with
  | INVALID_DISK_SIZE =>
      Str.includes (disk_space (request c))
        (error_details (snd (on_failure c status))) = true
  | INVALID_MEM_SIZE =>
      Str.includes (mem_size (request c))
        (error_details (snd (on_failure c status))) = true
  | INVALID_HOSTNAME =>
      Str.includes (instance_name (request c))
        (error_details (snd (on_failure c status))) = true
  | INVALID_NETWORK =>
      error_details (snd (on_failure c status)) =
      "Invalid network options supplied"
  | OTHER_ERROR_CODE =>
      error_details (snd (on_failure c status)) =
      fold_left (describe_error (request c)) codes EmptyString
  end.
Proof.
  intros Hcodes. unfold on_failure. simpl. rewrite Hcodes, describe_last.
  destruct code; simpl; try reflexivity.
  - apply (includes_middle _ "Invalid disk size value supplied: " ".").
  - apply (includes_middle _ "Invalid memory size value supplied: " ".").
  - apply (includes_end _ "Invalid instance name supplied: ").
Qed.

Example on_failure_disk_size :
  Str.includes "5X"
    (error_details (snd (on_failure refused_client (refused [INVALID_DISK_SIZE]))))
  = true.
Proof.
  exact (on_failure_error_details refused_client (refused [INVALID_DISK_SIZE])
           [] INVALID_DISK_SIZE eq_refl).
Qed.

(** C3, at the error payload [INVALID_NETWORK] for a request that asks for
    the network [eth7]: the message handed to the failure handler is the
    fixed text of the invalid-network branch and does not include the
    option that triggered the error. *)
Theorem on_failure_network_names_no_option :
  map id (network_options (request headless_client)) = ["eth7"] /\
  error_details (snd (on_failure headless_client (refused [INVALID_NETWORK]))) =
  "Invalid network options supplied" /\
  Str.includes "eth7"
    (error_details (snd (on_failure headless_client (refused [INVALID_NETWORK]))))
  = false.
Proof. repeat split. Qed.

(** With several codes only the message of the last one is kept. *)
Example on_failure_two_codes :
  error_details
    (snd (on_failure refused_client
            (refused [INVALID_DISK_SIZE; INVALID_MEM_SIZE]))) =
  "Invalid memory size value supplied: 1Q.".
Proof. reflexivity. Qed.

(** ** The streaming call-back *)

(** Every kind has its message in the table. *)
Lemma progress_message_found (kind : LaunchProgress_ProgressTypes) :
  In (kind, at_key progress_messages kind) progress_messages /\
  at_key progress_messages kind <> EmptyString.
Proof.
  destruct kind; simpl; split; try discriminate; tauto.
Qed.

Lemma progress_kinds (kind : LaunchProgress_ProgressTypes) :
  In kind
    [LaunchProgress_ProgressTypes_IMAGE; LaunchProgress_ProgressTypes_KERNEL;
     LaunchProgress_ProgressTypes_INITRD; LaunchProgress_ProgressTypes_EXTRACT;
     LaunchProgress_ProgressTypes_VERIFY; LaunchProgress_ProgressTypes_WAITING].
Proof. destruct kind; simpl; tauto. Qed.

(** C6: for a progress update the kind is one of image, kernel, initrd,
    extract, verify and waiting, and its message is found in the table. When
    the percentage is not ["-1"] the client stops the spinner and prints a
    carriage return, the message, the percentage and a percent sign; when it
    is ["-1"] the client restarts the spinner with the message. A log line,
    if there is one, goes out first in both cases. *)
Theorem streaming_callback_progress (reply : LaunchReply)
    (progress : LaunchProgress) :
  create_oneof reply = kLaunchProgress progress ->
  let message := at_key progress_messages (type progress) in
  let logged :=
    when (negb (Str.is_empty (log_line reply))) [SpinnerPrint (log_line reply)] in
  In (type progress)
    [LaunchProgress_ProgressTypes_IMAGE; LaunchProgress_ProgressTypes_KERNEL;
     LaunchProgress_ProgressTypes_INITRD; LaunchProgress_ProgressTypes_EXTRACT;
     LaunchProgress_ProgressTypes_VERIFY; LaunchProgress_ProgressTypes_WAITING] /\
  In (type progress, message) progress_messages /\
  message <> EmptyString /\
  (percent_complete progress <> "-1" ->
   streaming_callback reply =
   (logged ++ [SpinnerStop; Cout Str.cr;
               Cout (message ++ percent_complete progress ++ "%"); Flush])%list) /\
  (percent_complete progress = "-1" ->
   streaming_callback reply =
   (logged ++ [SpinnerStop; SpinnerStart message])%list).
Proof.
  intros Hcase message logged.
  split; [apply progress_kinds|].
  destruct (progress_message_found (type progress)) as [Hin Hne].
  split; [exact Hin|]. split; [exact Hne|].
  unfold streaming_callback. rewrite Hcase. fold message. fold logged.
  split; intros Hpercent.
  - apply String.eqb_neq in Hpercent. rewrite Hpercent. reflexivity.
  - rewrite Hpercent. reflexivity.
Qed.

Lemma streaming_callback_progress_witness :
  streaming_callback (progress_reply LaunchProgress_ProgressTypes_IMAGE "42") =
  [SpinnerStop; Cout Str.cr; Cout "Retrieving image: 42%"; Flush] /\
  streaming_callback (progress_reply LaunchProgress_ProgressTypes_VERIFY "-1") =
  [SpinnerStop; SpinnerStart "Verifying image: "].
Proof.
  split.
  - apply (streaming_callback_progress
             (progress_reply LaunchProgress_ProgressTypes_IMAGE "42")
             {| type := LaunchProgress_ProgressTypes_IMAGE;
                percent_complete := "42" |} eq_refl).
    discriminate.
  - apply (streaming_callback_progress
             (progress_reply LaunchProgress_ProgressTypes_VERIFY "-1")
             {| type := LaunchProgress_ProgressTypes_VERIFY;
                percent_complete := "-1" |} eq_refl).
    reflexivity.
Defined.

(** ** Backend selection *)

Module PlatformFacts.
Import Platform.

Lemma select_none (selector : string) (table : list (string * Backend)) :
  existsb (fun entry => String.eqb selector (fst entry)) table = false ->
  select selector table = None.
Proof.
  induction table as [|[n b] table IH]; simpl; [reflexivity|].
  intros H. apply orb_false_iff in H as [Hn Htable].
  rewrite Hn. apply IH, Htable.
Qed.

Lemma select_some (selector : string) (table : list (string * Backend)) :
  existsb (fun entry => String.eqb selector (fst entry)) table = true ->
  exists b, select selector table = Some b /\ In (selector, b) table.
Proof.
  induction table as [|[n b] table IH]; simpl; [discriminate|].
  destruct (String.eqb selector n) eqn:E.
  - intros _. apply String.eqb_eq in E. subst n. exists b. auto.
  - simpl. intros H. destruct (IH H) as (b' & Hsel & Hin). exists b'. auto.
Qed.

(** Each backend is compiled in under its own name. *)
Lemma compiled_in_selector (selector : string) (b : Backend) :
  In (selector, b) compiled_in -> selector_of b = selector.
Proof.
  simpl. intros [H|[H|[H|[]]]]; injection H as <- <-; reflexivity.
Qed.

(** C8: when the selector in force names no compiled-in backend,
    [vm_backend] fails with the unsupported-backend condition; when it names
    one, [vm_backend] returns the factory of that backend, on the directory
    it was given. *)
Theorem vm_backend_supported_or_fails (h : Host) (dir : string) :
  (is_backend_supported (driver h) = false ->
   vm_backend h dir = inl (UnsupportedDriver (driver h))) /\
  (is_backend_supported (driver h) = true ->
   exists b,
     vm_backend h dir = inr {| backend := b; data_dir := dir |} /\
     selector_of b = driver h).
Proof.
  unfold is_backend_supported, vm_backend. split; intros H.
  - rewrite (select_none _ _ H). reflexivity.
  - destruct (select_some _ _ H) as (b & Hsel & Hin).
    exists b. rewrite Hsel. split; [reflexivity|].
    apply compiled_in_selector, Hin.
Qed.

Lemma vm_backend_supported_or_fails_witness :
  vm_backend {| driver_setting := Some "hyperkit"; environment := [] |} "/tmp" =
  inl (UnsupportedDriver "hyperkit") /\
  exists b,
    vm_backend {| driver_setting := Some "lxd"; environment := [] |} "/tmp" =
    inr {| backend := b; data_dir := "/tmp" |} /\
    selector_of b = "lxd".
Proof.
  split.
  - apply (vm_backend_supported_or_fails
             {| driver_setting := Some "hyperkit"; environment := [] |} "/tmp").
    reflexivity.
  - apply (vm_backend_supported_or_fails
             {| driver_setting := Some "lxd"; environment := [] |} "/tmp").
    reflexivity.
Defined.

(** C10: two hosts with the same driver setting get the same factory from
    [vm_backend], whatever their environments hold: the setting alone
    decides. *)
Theorem vm_backend_ignores_environment (h1 h2 : Host) (dir : string) :
  driver_setting h1 = driver_setting h2 ->
  vm_backend h1 dir = vm_backend h2 dir.
Proof.
  intros Hsetting. unfold vm_backend, driver. rewrite Hsetting. reflexivity.
Qed.

Lemma vm_backend_ignores_environment_witness :
  vm_backend
    (set_env "MULTIPASS_VM_DRIVER" "QEMU"
       {| driver_setting := Some "libvirt"; environment := [] |}) "/tmp" =
  vm_backend
    (set_env "MULTIPASS_VM_DRIVER" "LIBVIRT"
       {| driver_setting := Some "libvirt"; environment := [] |}) "/tmp".
Proof.
  apply (vm_backend_ignores_environment
           (set_env "MULTIPASS_VM_DRIVER" "QEMU"
              {| driver_setting := Some "libvirt"; environment := [] |})
           (set_env "MULTIPASS_VM_DRIVER" "LIBVIRT"
              {| driver_setting := Some "libvirt"; environment := [] |})
           "/tmp").
  reflexivity.
Defined.

(** Setting a variable of the environment does not change the outcome. *)
Lemma vm_backend_set_env (h : Host) (var value dir : string) :
  vm_backend (set_env var value h) dir = vm_backend h dir.
Proof. reflexivity. Qed.

(** The expectations of [tests/linux/test_platform_linux.cpp], lines
    293-328 and 389-402, hold of the model. *)

Example test_default_qemu_driver_produces_correct_factory :
  produces {| driver_setting := None; environment := [] |}
    QemuVirtualMachineFactory.
Proof. eexists. split; reflexivity. Qed.

Example test_explicit_qemu_driver_produces_correct_factory :
  produces {| driver_setting := Some "qemu"; environment := [] |}
    QemuVirtualMachineFactory.
Proof. eexists. split; reflexivity. Qed.

Example test_libvirt_driver_produces_correct_factory :
  produces {| driver_setting := Some "libvirt"; environment := [] |}
    LibVirtVirtualMachineFactory.
Proof. eexists. split; reflexivity. Qed.

Example test_lxd_driver_produces_correct_factory :
  produces {| driver_setting := Some "lxd"; environment := [] |}
    LXDVirtualMachineFactory.
Proof. eexists. split; reflexivity. Qed.

Example test_qemu_in_env_var_is_ignored (driver_env_var : string) :
  produces
    (set_env driver_env_var "QEMU"
       {| driver_setting := Some "libvirt"; environment := [] |})
    LibVirtVirtualMachineFactory.
Proof. eexists. split; reflexivity. Qed.

Example test_libvirt_in_env_var_is_ignored (driver_env_var : string) :
  produces
    (set_env driver_env_var "LIBVIRT"
       {| driver_setting := Some "qemu"; environment := [] |})
    QemuVirtualMachineFactory.
Proof. eexists. split; reflexivity. Qed.

Example test_unsupported_driver (selector : string) :
  In selector ["hyperkit"; "hyper-v"; "other"] ->
  is_backend_supported selector = false /\
  vm_backend {| driver_setting := Some selector; environment := [] |}
    backend_path = inl (UnsupportedDriver selector).
Proof.
  simpl. intros [<-|[<-|[<-|[]]]]; split; reflexivity.
Qed.

End PlatformFacts.

(** ** The virtual-machine contract *)

Module VMFacts.
Import VM.

(** C9: on a machine whose state is [stopped], [stop] succeeds, asks
    nothing of the hypervisor and leaves the machine as it is, whether
    forced or not and whatever the hypervisor would have answered. *)
Theorem stop_stopped (vm : VirtualMachine) (force backend_ok : bool) :
  current_state vm = stopped ->
  stop force backend_ok vm = (Success, vm, []) /\
  current_state (snd (fst (stop force backend_ok vm))) = stopped.
Proof.
  unfold current_state, stop. intros H. rewrite H. simpl. auto.
Qed.

Lemma stop_stopped_witness :
  stop false false
    {| vm_name := "test1"; state := stopped; update_suspend_status := true |} =
  (Success,
   {| vm_name := "test1"; state := stopped; update_suspend_status := true |},
   []).
Proof.
  apply (stop_stopped
           {| vm_name := "test1"; state := stopped;
              update_suspend_status := true |} false false).
  reflexivity.
Defined.

(** A stop that succeeds leaves a machine on which a second stop does
    nothing. *)
Lemma stop_twice (vm : VirtualMachine) (force force' backend_ok' : bool) :
  let vm' := snd (fst (stop force true vm)) in
  stop force' backend_ok' vm' = (Success, vm', []).
Proof.
  intros vm'.
  assert (H : state vm' = stopped).
  { subst vm'. unfold stop. destruct (state vm) eqn:E; simpl; auto. }
  unfold stop at 1. rewrite H. reflexivity.
Qed.

End VMFacts.

(** ** Cancellation of downloads *)

Module DownloaderFacts.
Import Downloader.

(** Once the flag is set, a download in flight fails at its next turn, and
    a turn changes nothing else. *)
Lemma turn_aborted (d : URLDownloader) (x : Download) :
  abort_download d = true ->
  turn d x = if is_in_flight x then Cancelled else x.
Proof.
  intros H. destruct x; simpl; [rewrite H|..]; reflexivity.
Qed.

(** Nothing in the model clears the flag. *)
Lemma step_keeps_flag (a : Action) (s : Instance) :
  abort_download (downloader s) = true ->
  abort_download (downloader (step a s)) = true.
Proof. destruct a; simpl; auto. Qed.

Lemma nth_error_advance (d : URLDownloader) (j : nat) (l : list Download)
    (i : nat) (x : Download) :
  nth_error l i = Some x ->
  nth_error (advance d j l) i = Some (if Nat.eqb i j then turn d x else x).
Proof.
  revert i j. induction l as [|y l IH]; intros [|i] [|j]; simpl;
    try discriminate; try (intros H; exact H).
  - intros H. injection H as ->. reflexivity.
  - intros H. apply IH, H.
Qed.

(** What one step does to the download at position [i]. *)
Lemma step_at (a : Action) (s : Instance) (i : nat) (x : Download) :
  nth_error (downloads s) i = Some x ->
  nth_error (downloads (step a s)) i =
  Some match a with
       | Chunk j => if Nat.eqb i j then turn (downloader s) x else x
       | _ => x
       end.
Proof.
  intros H. destruct a as [chunks|j|]; simpl.
  - rewrite nth_error_app1; [exact H|].
    apply nth_error_Some. rewrite H. discriminate.
  - apply nth_error_advance, H.
  - exact H.
Qed.

(** After the flag is set a download stays as it is until its next turn,
    and a download in flight is cancelled by that turn. *)
Lemma run_aborted (schedule : list Action) :
  forall (s : Instance) (i : nat) (x : Download),
    abort_download (downloader s) = true ->
    nth_error (downloads s) i = Some x ->
    abort_download (downloader (run schedule s)) = true /\
    (nth_error (downloads (run schedule s)) i = Some x \/
     is_in_flight x = true /\
     nth_error (downloads (run schedule s)) i = Some Cancelled) /\
    (In (Chunk i) schedule -> is_in_flight x = true ->
     nth_error (downloads (run schedule s)) i = Some Cancelled).
Proof.
  induction schedule as [|a schedule IH]; intros s i x Hflag Hx.
  - simpl. split; [exact Hflag|]. split; [left; exact Hx|]. intros [].
  - change (run (a :: schedule) s) with (run schedule (step a s)).
    pose proof (step_keeps_flag a s Hflag) as Hflag'.
    pose proof (step_at a s i x Hx) as Hstep.
    assert (Hcases :
      nth_error (downloads (step a s)) i = Some x /\ (a <> Chunk i \/ is_in_flight x = false) \/
      is_in_flight x = true /\ a = Chunk i /\
      nth_error (downloads (step a s)) i = Some Cancelled).
    { destruct a as [chunks|j|]; try (left; split; [exact Hstep | left; discriminate]).
      destruct (Nat.eqb_spec i j) as [->|Hij].
      - rewrite (turn_aborted _ x Hflag) in Hstep.
        destruct (is_in_flight x); [right | left]; auto.
      - left. split; [exact Hstep|]. left. intros E. injection E as E. auto. }
    destruct Hcases as [[Hsame Hnot]|(Hfly & Ha & Hcancelled)].
    + destruct (IH (step a s) i x Hflag' Hsame) as (Hf & Hstate & Hturn).
      split; [exact Hf|]. split; [exact Hstate|].
      intros [Ha|Hin] Hfly.
      * destruct Hnot as [Hnot|Hnot]; [contradiction | congruence].
      * apply Hturn; assumption.
    + destruct (IH (step a s) i Cancelled Hflag' Hcancelled) as (Hf & Hstate & _).
      assert (Hend : nth_error (downloads (run schedule (step a s))) i = Some Cancelled).
      { destruct Hstate as [H|[H _]]; [exact H | discriminate H]. }
      split; [exact Hf|]. split; [right; split; assumption|].
      intros _ _. exact Hend.
Qed.

(** C7: [abort_all_downloads] sets the one flag of the downloader, and the
    flag stays set. From then on, whatever the threads do and in whatever
    order, no download that was in flight completes: it is still where it
    was as long as it has not taken its next turn, and it has failed with
    the cancellation condition as soon as it has. *)
Theorem abort_all_downloads_cancels (s : Instance) (schedule : list Action)
    (i : nat) (x : Download) :
  nth_error (downloads s) i = Some x ->
  is_in_flight x = true ->
  let aborted := step AbortAll s in
  let s' := run schedule aborted in
  abort_download (downloader aborted) = true /\
  abort_download (downloader s') = true /\
  (nth_error (downloads s') i = Some x \/
   nth_error (downloads s') i = Some Cancelled) /\
  (forall y, nth_error (downloads s') i = Some y -> is_completed y = false) /\
  (In (Chunk i) schedule -> nth_error (downloads s') i = Some Cancelled).
Proof.
  intros Hx Hfly aborted s'.
  assert (Hflag : abort_download (downloader aborted) = true) by reflexivity.
  destruct (run_aborted schedule aborted i x Hflag Hx) as (Hf & Hstate & Hturn).
  fold s' in Hf, Hstate, Hturn.
  assert (Hstate' : nth_error (downloads s') i = Some x \/
                    nth_error (downloads s') i = Some Cancelled)
    by (destruct Hstate as [H|[_ H]]; auto).
  repeat split; auto.
  intros y Hy. destruct Hstate' as [H|H]; rewrite H in Hy; injection Hy as <-.
  - destruct x; [reflexivity | discriminate Hfly | reflexivity].
  - reflexivity.
Qed.

Lemma abort_all_downloads_cancels_witness :
  let s := {| downloader := make; downloads := [InFlight 3 2; InFlight 0 1] |} in
  let s' := run [Chunk 1; Begin 4; Chunk 0; Chunk 2] (step AbortAll s) in
  nth_error (downloads s') 0 = Some Cancelled.
Proof.
  intros s s'.
  apply (abort_all_downloads_cancels s [Chunk 1; Begin 4; Chunk 0; Chunk 2]
           0 (InFlight 3 2) eq_refl eq_refl).
  simpl. auto.
Defined.

(** A download begun after the flag was set is cancelled at its first
    turn. *)
Lemma begun_after_abort (s : Instance) (chunks : nat) :
  abort_download (downloader s) = true ->
  nth_error
    (downloads (run [Begin chunks; Chunk (length (downloads s))] s))
    (length (downloads s)) = Some Cancelled.
Proof.
  intros Hflag.
  assert (H0 : nth_error (downloads (step (Begin chunks) s)) (length (downloads s))
               = Some (InFlight 0 chunks)).
  { simpl. rewrite nth_error_app2, Nat.sub_diag by lia. reflexivity. }
  destruct (run_aborted [Chunk (length (downloads s))] (step (Begin chunks) s)
              _ _ (step_keeps_flag _ s Hflag) H0) as (_ & _ & Hturn).
  apply Hturn; [left; reflexivity | reflexivity].
Qed.

(** Without the abort the same downloads complete. *)
Example downloads_complete_without_abort :
  downloads
    (run [Chunk 0; Chunk 1; Chunk 0; Chunk 1; Chunk 0]
       {| downloader := make; downloads := [InFlight 3 2; InFlight 0 1] |}) =
  [Completed 5; Completed 1].
Proof. reflexivity. Qed.

End DownloaderFacts.

(** * Further properties of the launch command *)

(** ** Lower case *)

Lemma lower_ascii_idem (c : ascii) :
  Str.lower_ascii (Str.lower_ascii c) = Str.lower_ascii c.
Proof. destruct c as [[] [] [] [] [] [] [] []]; reflexivity. Qed.

Lemma lower_ascii_comma (c : ascii) :
  Ascii.eqb (Str.lower_ascii c) "," = Ascii.eqb c ",".
Proof. destruct c as [[] [] [] [] [] [] [] []]; reflexivity. Qed.

Lemma lower_ascii_equals (c : ascii) :
  Ascii.eqb (Str.lower_ascii c) "=" = Ascii.eqb c "=".
Proof. destruct c as [[] [] [] [] [] [] [] []]; reflexivity. Qed.

Lemma toLower_idem (s : string) : Str.toLower (Str.toLower s) = Str.toLower s.
Proof.
  induction s as [|c s IH]; simpl; [reflexivity|].
  rewrite lower_ascii_idem, IH. reflexivity.
Qed.

Lemma is_empty_toLower (s : string) :
  Str.is_empty (Str.toLower s) = Str.is_empty s.
Proof. destruct s; reflexivity. Qed.

Lemma contains_comma_toLower (s : string) :
  Str.contains "," (Str.toLower s) = Str.contains "," s.
Proof.
  induction s as [|c s IH]; simpl; [reflexivity|].
  rewrite lower_ascii_comma, IH. reflexivity.
Qed.

Lemma contains_equals_toLower (s : string) :
  Str.contains "=" (Str.toLower s) = Str.contains "=" s.
Proof.
  induction s as [|c s IH]; simpl; [reflexivity|].
  rewrite lower_ascii_equals, IH. reflexivity.
Qed.

Lemma is_token_toLower (s : string) : is_token (Str.toLower s) = is_token s.
Proof.
  unfold is_token.
  rewrite is_empty_toLower, contains_comma_toLower, contains_equals_toLower.
  reflexivity.
Qed.

(** ** Splitting, again *)

Lemma split_keep_app (sep : ascii) (x y : string) :
  Str.split_keep sep (x ++ String sep y) =
  (Str.split_keep sep x ++ Str.split_keep sep y)%list.
Proof.
  unfold Str.split_keep. induction x as [|c x IH]; simpl.
  - rewrite Ascii.eqb_refl. destruct (Str.fields sep y). reflexivity.
  - destruct (Str.fields sep (x ++ String sep y)) as [f fs].
    destruct (Str.fields sep x) as [fx fsx].
    destruct (Str.fields sep y) as [fy fsy].
    simpl in IH. injection IH as -> ->.
    destruct (Ascii.eqb c sep); reflexivity.
Qed.

(** Cutting at a separator cuts the list of parts. *)
Lemma split_app (sep : ascii) (x y : string) :
  Str.split sep (x ++ String sep y) =
  (Str.split sep x ++ Str.split sep y)%list.
Proof.
  unfold Str.split. rewrite split_keep_app. apply filter_app.
Qed.

Lemma split_empty (sep : ascii) : Str.split sep EmptyString = [].
Proof. reflexivity. Qed.

Lemma split_pair (k v : string) :
  is_token k = true -> is_token v = true ->
  Str.split "=" (write_pair (k, v)) = [k; v].
Proof.
  intros Hk Hv.
  apply is_token_spec in Hk as (Hk1 & _ & Hk3).
  apply is_token_spec in Hv as (Hv1 & _ & Hv3).
  unfold write_pair. simpl fst. simpl snd.
  rewrite split_cut by assumption. rewrite split_free by assumption.
  reflexivity.
Qed.

Lemma write_pair_part (k v : string) :
  is_token k = true -> is_token v = true ->
  Str.contains "," (write_pair (k, v)) = false /\
  Str.is_empty (write_pair (k, v)) = false.
Proof.
  intros Hk Hv.
  apply is_token_spec in Hk as (Hk1 & Hk2 & _).
  apply is_token_spec in Hv as (_ & Hv2 & _).
  unfold write_pair. simpl fst. simpl snd. split.
  - rewrite contains_app. simpl. rewrite Hk2, Hv2. reflexivity.
  - destruct k; [discriminate Hk1 | reflexivity].
Qed.

(** ** More on the network-option parser *)

Section NetDigestMore.

Variable valid : string -> bool.

(** [net_digest] looks at its argument through the list of its non-empty
    comma-separated parts only. *)
Lemma net_digest_parts (a b : string) :
  Str.split "," a = Str.split "," b ->
  net_digest valid a = net_digest valid b.
Proof. intros H. unfold net_digest. rewrite H. reflexivity. Qed.

(** What [net_digest] makes of an option written from well-formed pairs,
    with or without a name among them. *)
Lemma net_digest_written (fs : list Field) :
  Forall (fun f => well_formed valid f = true) fs ->
  net_digest valid (write_fields fs) =
  if Str.is_empty (id (fold_left apply_field fs fresh_net))
  then throw "Bad network definition, need at least a 'name' field"
  else inr (fold_left apply_field fs fresh_net).
Proof.
  intros Hwf. unfold net_digest.
  rewrite (split_write_fields valid fs Hwf).
  rewrite (digest_loop_write_fields valid _ fs Hwf). reflexivity.
Qed.

Lemma mode_fold_apply_field (fs : list Field) :
  forall net,
    mode (fold_left apply_field fs net) =
    match last_mode fs with
    | Some m => m
    | None => mode net
    end.
Proof.
  induction fs as [|f fs IH]; intros net; [reflexivity|].
  simpl. rewrite IH. destruct (last_mode fs); [reflexivity|].
  destruct f; reflexivity.
Qed.

Lemma mac_fold_apply_field (fs : list Field) :
  forall net,
    mac_address (fold_left apply_field fs net) =
    match last_mac fs with
    | Some v => v
    | None => mac_address net
    end.
Proof.
  induction fs as [|f fs IH]; intros net; [reflexivity|].
  simpl. rewrite IH. destruct (last_mac fs); [reflexivity|].
  destruct f; reflexivity.
Qed.

(** Writing a message out and parsing it gives the message back, as long as
    its id can stand in a pair and its hardware address, if any, is valid. *)
Theorem net_digest_round_trip (net : LaunchRequest_NetworkOptions) :
  is_token (id net) = true ->
  Str.is_empty (mac_address net) = true \/
  is_token (mac_address net) = true /\ valid (mac_address net) = true ->
  net_digest valid (write_fields (fields_of net)) = inr net.
Proof.
  intros Hid Hmac.
  assert (Hwf : Forall (fun f => well_formed valid f = true) (fields_of net)).
  { unfold fields_of. constructor; [exact Hid|]. constructor; [reflexivity|].
    destruct (Str.is_empty (mac_address net)) eqn:E; [constructor|].
    destruct Hmac as [H|[Ht Hv]]; [discriminate H|].
    constructor; [|constructor]. simpl. rewrite Ht, Hv. reflexivity. }
  rewrite (net_digest_written _ Hwf).
  apply is_token_spec in Hid as (Hne & _).
  destruct net as [i m a]. unfold fields_of. simpl in *.
  destruct (Str.is_empty a) eqn:E; simpl; rewrite Hne.
  - destruct a; [reflexivity | discriminate E].
  - reflexivity.
Qed.

(** For each key the last pair wins: an option written from well-formed
    pairs is accepted exactly when one of them is a name, and then the id is
    the last name, the mode the last mode (auto without one) and the
    hardware address the last one given (none without one). *)
Theorem net_digest_last_pair_wins (fs : list Field)
    (net : LaunchRequest_NetworkOptions) :
  Forall (fun f => well_formed valid f = true) fs ->
  net_digest valid (write_fields fs) = inr net ->
  last_name fs = Some (id net) /\
  mode net = match last_mode fs with
             | Some m => m
             | None => LaunchRequest_NetworkOptions_Mode_AUTO
             end /\
  mac_address net = match last_mac fs with
                    | Some v => v
                    | None => EmptyString
                    end.
Proof.
  intros Hwf. rewrite (net_digest_written _ Hwf).
  destruct (Str.is_empty (id (fold_left apply_field fs fresh_net))) eqn:E;
    [discriminate|].
  intros H. injection H as <-.
  rewrite mode_fold_apply_field, mac_fold_apply_field. split; [|split; reflexivity].
  rewrite id_fold_apply_field in *.
  destruct (last_name fs); [reflexivity | discriminate E].
Qed.

(** Without a name among its pairs the option is refused, however
    well-formed the pairs are. *)
Theorem net_digest_needs_name (fs : list Field) :
  Forall (fun f => well_formed valid f = true) fs ->
  count_names fs = 0 ->
  net_digest valid (write_fields fs) =
  inl (ValidationError "Bad network definition, need at least a 'name' field").
Proof.
  intros Hwf Hcount. rewrite (net_digest_written _ Hwf).
  rewrite id_fold_apply_field.
  assert (Hnone : last_name fs = None).
  { clear Hwf. induction fs as [|f fs IH]; [reflexivity|].
    simpl in *. destruct f; try discriminate; rewrite (IH Hcount); reflexivity. }
  rewrite Hnone. reflexivity.
Qed.

(** The shorthand: a bare token means the pair [name=token]. *)
Theorem net_digest_shorthand (token : string) :
  is_token token = true ->
  net_digest valid token = net_digest valid (write_field (Name token)).
Proof.
  intros Htoken.
  assert (Hwf : Forall (fun f => well_formed valid f = true) [Name token])
    by (constructor; [exact Htoken | constructor]).
  change (write_field (Name token)) with (write_fields [Name token]).
  rewrite (net_digest_written _ Hwf).
  apply is_token_spec in Htoken as (Hne & Hcomma & Heq).
  unfold net_digest. rewrite (split_free _ _ Hcomma Hne). simpl.
  unfold digest_pair. rewrite (split_free _ _ Heq Hne). simpl.
  rewrite Hne. reflexivity.
Qed.

(** Empty parts do not count: a comma in front, a comma at the end and a
    doubled comma change nothing. *)
Theorem net_digest_skips_empty_parts (x y : string) :
  net_digest valid (String "," x) = net_digest valid x /\
  net_digest valid (x ++ ",") = net_digest valid x /\
  net_digest valid (x ++ ",," ++ y) = net_digest valid (x ++ "," ++ y).
Proof.
  split; [|split]; apply net_digest_parts.
  - apply (split_app "," EmptyString x).
  - change (x ++ ",") with (x ++ String "," EmptyString).
    rewrite split_app. apply app_nil_r.
  - change (x ++ ",," ++ y) with (x ++ String "," (EmptyString ++ String "," y)).
    change (x ++ "," ++ y) with (x ++ String "," y).
    rewrite !split_app. reflexivity.
Qed.

(** The parts are taken from left to right and the first one that is refused
    decides the error: the parts after it are not looked at. *)
Theorem net_digest_first_error (options : string) (before after : list string)
    (kv : string) (net : LaunchRequest_NetworkOptions)
    (e : ValidationException) :
  Str.split "," options = (before ++ kv :: after)%list ->
  digest_loop valid (length (before ++ kv :: after)) fresh_net before = inr net ->
  digest_pair valid (length (before ++ kv :: after)) net kv = inl e ->
  net_digest valid options = inl e.
Proof.
  intros Hsplit Hbefore Hkv. unfold net_digest. rewrite Hsplit.
  rewrite digest_loop_app, Hbefore, bind_returned. simpl. rewrite Hkv.
  reflexivity.
Qed.

(** Keys are matched whatever their case, and so are the values of [mode]:
    an option of key-value pairs is parsed like the same option with its
    keys, and the values of its modes, in lower case. *)

Lemma digest_pair_lower (n : nat) (net : LaunchRequest_NetworkOptions)
    (kv : string * string) :
  is_token (fst kv) = true -> is_token (snd kv) = true ->
  digest_pair valid n net (write_pair kv) =
  digest_pair valid n net (write_pair (lower_pair kv)).
Proof.
  destruct kv as [k v]. simpl fst. simpl snd. intros Hk Hv.
  unfold digest_pair, lower_pair. simpl fst. simpl snd.
  rewrite (split_pair k v Hk Hv). cbv zeta.
  assert (Hk' : is_token (Str.toLower k) = true) by (rewrite is_token_toLower; exact Hk).
  destruct (String.eqb (Str.toLower k) "mode") eqn:Emode.
  - assert (Hv' : is_token (Str.toLower v) = true) by (rewrite is_token_toLower; exact Hv).
    rewrite (split_pair _ _ Hk' Hv'). cbv zeta. rewrite !toLower_idem, Emode.
    apply String.eqb_eq in Emode. rewrite Emode. reflexivity.
  - rewrite (split_pair _ _ Hk' Hv). cbv zeta. rewrite toLower_idem, Emode.
    reflexivity.
Qed.

Lemma digest_loop_lower (n : nat) (kvs : list (string * string)) :
  Forall (fun kv => is_token (fst kv) = true /\ is_token (snd kv) = true) kvs ->
  forall net,
    digest_loop valid n net (map write_pair kvs) =
    digest_loop valid n net (map write_pair (map lower_pair kvs)).
Proof.
  induction 1 as [|kv kvs [Hk Hv] Hkvs IH]; intros net; [reflexivity|].
  simpl. rewrite <- (digest_pair_lower n net kv Hk Hv).
  destruct (digest_pair valid n net (write_pair kv)) as [e|net']; [reflexivity|].
  simpl. apply IH.
Qed.

Lemma split_written_pairs (kvs : list (string * string)) :
  Forall (fun kv => is_token (fst kv) = true /\ is_token (snd kv) = true) kvs ->
  Str.split "," (Str.join "," (map write_pair kvs)) = map write_pair kvs.
Proof.
  intros H. apply split_join.
  induction H as [|[k v] kvs [Hk Hv] Hkvs IH]; simpl; constructor; auto.
  apply write_pair_part; assumption.
Qed.

Lemma lower_pair_tokens (kvs : list (string * string)) :
  Forall (fun kv => is_token (fst kv) = true /\ is_token (snd kv) = true) kvs ->
  Forall (fun kv => is_token (fst kv) = true /\ is_token (snd kv) = true)
    (map lower_pair kvs).
Proof.
  induction 1 as [|[k v] kvs [Hk Hv] Hkvs IH]; simpl; constructor; auto.
  unfold lower_pair. simpl. rewrite is_token_toLower. split; [exact Hk|].
  destruct (String.eqb (Str.toLower k) "mode");
    [rewrite is_token_toLower|]; exact Hv.
Qed.

Theorem net_digest_ignores_case (kvs : list (string * string)) :
  Forall (fun kv => is_token (fst kv) = true /\ is_token (snd kv) = true) kvs ->
  net_digest valid (Str.join "," (map write_pair kvs)) =
  net_digest valid (Str.join "," (map write_pair (map lower_pair kvs))).
Proof.
  intros H. unfold net_digest.
  rewrite (split_written_pairs kvs H).
  rewrite (split_written_pairs _ (lower_pair_tokens kvs H)).
  rewrite !length_map. rewrite (digest_loop_lower _ kvs H). reflexivity.
Qed.

End NetDigestMore.

(** ** What the parser lets through *)

Section NetDigestInvariant.

Variable valid : string -> bool.

(** A field holds no separator, and nothing that the string did not hold. *)
Lemma fields_parts (sep : ascii) (s : string) :
  forall q, In q (Str.split_keep sep s) ->
    Str.contains sep q = false /\
    forall c, Str.contains c q = true -> Str.contains c s = true.
Proof.
  unfold Str.split_keep. induction s as [|d s IH]; simpl.
  - intros q [<-|[]]. split; [reflexivity | discriminate].
  - destruct (Str.fields sep s) as [f fs]. destruct (Ascii.eqb d sep) eqn:E.
    + intros q [<-|Hq]; [split; [reflexivity | discriminate]|].
      destruct (IH q Hq) as [Hsep Hsub]. split; [exact Hsep|].
      intros c Hc. rewrite (Hsub c Hc). apply orb_true_r.
    + intros q [<-|Hq].
      * destruct (IH f (or_introl eq_refl)) as [Hsep Hsub]. split.
        -- simpl. rewrite E, Hsep. reflexivity.
        -- intros c. simpl. intros Hc. apply orb_true_iff in Hc as [Hc|Hc].
           ++ rewrite Hc. reflexivity.
           ++ rewrite (Hsub c Hc). apply orb_true_r.
      * destruct (IH q (or_intror Hq)) as [Hsep Hsub]. split; [exact Hsep|].
        intros c Hc. rewrite (Hsub c Hc). apply orb_true_r.
Qed.

Lemma split_parts (sep : ascii) (s q : string) :
  In q (Str.split sep s) ->
  Str.is_empty q = false /\ Str.contains sep q = false /\
  forall c, Str.contains c q = true -> Str.contains c s = true.
Proof.
  unfold Str.split. intros H. apply filter_In in H as [Hin Hne].
  apply negb_true_iff in Hne. destruct (fields_parts sep s q Hin). auto.
Qed.

(** A value cut out of a comma-free part at [=] can stand in a pair. *)
Lemma value_is_token (kv v : string) :
  Str.contains "," kv = false -> In v (Str.split "=" kv) -> is_token v = true.
Proof.
  intros Hkv Hin. destruct (split_parts "=" kv v Hin) as (Hne & Heq & Hsub).
  unfold is_token. rewrite Hne, Heq.
  destruct (Str.contains "," v) eqn:E; [|reflexivity].
  rewrite (Hsub _ E) in Hkv. discriminate Hkv.
Qed.

Lemma digest_pair_digested (n : nat) (net net' : LaunchRequest_NetworkOptions)
    (kv : string) :
  Str.contains "," kv = false ->
  digest_pair valid n net kv = inr net' ->
  digested valid net -> digested valid net'.
Proof.
  intros Hkv Hpair [Hid Hmac]. unfold digest_pair in Hpair.
  pose proof (value_is_token kv) as Hvalue. specialize (Hvalue) with (1 := Hkv).
  destruct (Str.split "=" kv) as [|a [|b [|c l]]]; try discriminate Hpair.
  - destruct (Nat.eqb n 1); [|discriminate Hpair].
    injection Hpair as <-. split; [right; apply Hvalue; left; reflexivity | exact Hmac].
  - cbv zeta in Hpair.
    assert (Hb : is_token b = true) by (apply Hvalue; right; left; reflexivity).
    destruct (String.eqb (Str.toLower a) "name").
    { injection Hpair as <-. split; [right; exact Hb | exact Hmac]. }
    destruct (String.eqb (Str.toLower a) "mode").
    { destruct (checked_mode (Str.toLower b)) as [e|m]; [discriminate Hpair|].
      injection Hpair as <-. split; assumption. }
    destruct (String.eqb (Str.toLower a) "mac"); [|discriminate Hpair].
    unfold checked_mac in Hpair. destruct (valid b) eqn:Hv; [|discriminate Hpair].
    injection Hpair as <-. split; [exact Hid | right; split; assumption].
Qed.

Lemma digest_loop_digested (n : nat) (pairs : list string) :
  Forall (fun kv => Str.contains "," kv = false) pairs ->
  forall net net',
    digest_loop valid n net pairs = inr net' -> digested valid net -> digested valid net'.
Proof.
  induction 1 as [|kv pairs Hkv Hpairs IH]; intros net net' Hloop Hnet.
  - injection Hloop as <-. exact Hnet.
  - simpl in Hloop.
    destruct (digest_pair valid n net kv) as [e|net1] eqn:E; [discriminate Hloop|].
    apply (IH net1 net' Hloop). apply (digest_pair_digested n net net1 kv Hkv E Hnet).
Qed.

(** Whatever the option string, a message that [net_digest] returns has an
    id that is not empty and holds neither [,] nor [=], and a hardware
    address that is either not set or valid, and free of [,] and [=] too. *)
Theorem net_digest_returns_tokens (options : string)
    (net : LaunchRequest_NetworkOptions) :
  net_digest valid options = inr net ->
  is_token (id net) = true /\
  (Str.is_empty (mac_address net) = true \/
   is_token (mac_address net) = true /\ valid (mac_address net) = true).
Proof.
  unfold net_digest. intros H.
  destruct (digest_loop valid (length (Str.split "," options)) fresh_net
              (Str.split "," options)) as [e|net'] eqn:Hloop; [discriminate H|].
  rewrite bind_returned in H.
  destruct (Str.is_empty (id net')) eqn:Hne; [discriminate H|].
  injection H as <-.
  assert (Hparts : Forall (fun kv => Str.contains "," kv = false)
                     (Str.split "," options)).
  { apply Forall_forall. intros kv Hin.
    destruct (split_parts "," options kv Hin) as (_ & Hc & _). exact Hc. }
  destruct (digest_loop_digested _ _ Hparts fresh_net net' Hloop) as [Hid Hmac].
  { split; left; reflexivity. }
  split; [|exact Hmac].
  destruct Hid as [Hid|Hid]; [rewrite Hid in Hne; discriminate Hne | exact Hid].
Qed.

End NetDigestInvariant.

(** ** The image argument *)

(** Joining undoes cutting into fields. *)
Lemma join_split_keep (sep : ascii) (s : string) :
  Str.join sep (Str.split_keep sep s) = s.
Proof.
  unfold Str.split_keep. induction s as [|c s IH]; simpl; [reflexivity|].
  destruct (Str.fields sep s) as [f fs].
  destruct (Ascii.eqb_spec c sep) as [->|Hc].
  - change (Str.join sep (EmptyString :: f :: fs))
      with (String sep (Str.join sep (f :: fs))).
    rewrite IH. reflexivity.
  - destruct fs as [|g fs]; simpl in *; rewrite <- IH; reflexivity.
Qed.

(** There is one field more than there are separators. *)
Lemma length_split_keep (sep : ascii) (s : string) :
  length (Str.split_keep sep s) = S (QString.count sep s).
Proof.
  unfold Str.split_keep. induction s as [|c s IH]; simpl; [reflexivity|].
  destruct (Str.fields sep s) as [f fs].
  destruct (Ascii.eqb c sep); simpl in *; rewrite <- IH; reflexivity.
Qed.

Lemma count_free (sep : ascii) (s : string) :
  Str.contains sep s = false -> QString.count sep s = 0.
Proof.
  induction s as [|c s IH]; simpl; [reflexivity|].
  intros H. apply orb_false_iff in H as [Hc Hs]. rewrite Hc, (IH Hs). reflexivity.
Qed.

Lemma count_app (sep : ascii) (a b : string) :
  QString.count sep (a ++ b) = QString.count sep a + QString.count sep b.
Proof.
  induction a as [|c a IH]; simpl; [reflexivity|]. rewrite IH. lia.
Qed.

(** A string with one separator is two fields around it. *)
Lemma split_keep_once (sep : ascii) (s : string) :
  QString.count sep s = 1 ->
  exists a b,
    Str.split_keep sep s = [a; b] /\ s = a ++ String sep b /\
    Str.contains sep a = false /\ Str.contains sep b = false.
Proof.
  intros Hcount.
  pose proof (length_split_keep sep s) as Hlen. rewrite Hcount in Hlen.
  pose proof (join_split_keep sep s) as Hjoin.
  pose proof (fields_parts sep s) as Hparts.
  destruct (Str.split_keep sep s) as [|a [|b [|c l]]]; try discriminate Hlen.
  exists a, b. split; [reflexivity|]. split; [symmetry; exact Hjoin|].
  split; apply Hparts; simpl; auto.
Qed.

(** The two calls of [section] on a string of two fields. *)
Lemma section_of_two (sep : ascii) (s a b : string) :
  Str.split_keep sep s = [a; b] ->
  QString.section sep 0 0 s = a /\ QString.section sep 1 (-1) s = b.
Proof.
  intros H. unfold QString.section. rewrite H. split; reflexivity.
Qed.

(** A name with one colon that is no URL is cut at the colon into the remote
    and the image, and the two put together again around a colon are the
    argument. *)
Theorem parse_image_cuts_at_colon (remote_image_name : string)
    (others : list string) (r : LaunchRequest) :
  is_url remote_image_name = false ->
  QString.count ":" remote_image_name = 1 ->
  exists remote img,
    parse_image (remote_image_name :: others) r =
    inr (set_image (set_remote_name r remote) img) /\
    remote_image_name = remote ++ ":" ++ img /\
    Str.contains ":" remote = false /\ Str.contains ":" img = false.
Proof.
  intros Hurl Hcount.
  destruct (split_keep_once ":" remote_image_name Hcount)
    as (a & b & Hsplit & Hs & Ha & Hb).
  destruct (section_of_two ":" remote_image_name a b Hsplit) as [H0 H1].
  exists a, b. unfold parse_image. rewrite Hurl, Hcount, H0, H1. auto.
Qed.

(** The other way round: a remote and an image without colons, written
    around a colon, are found again, unless the whole reads as a URL. *)
Theorem parse_image_round_trip (remote img : string) (others : list string)
    (r : LaunchRequest) :
  Str.contains ":" remote = false ->
  Str.contains ":" img = false ->
  is_url (remote ++ ":" ++ img) = false ->
  parse_image ((remote ++ ":" ++ img) :: others) r =
  inr (set_image (set_remote_name r remote) img).
Proof.
  intros Hremote Himg Hurl.
  assert (Hcount : QString.count ":" (remote ++ ":" ++ img) = 1).
  { rewrite count_app. simpl. rewrite (count_free _ _ Hremote), (count_free _ _ Himg).
    reflexivity. }
  assert (Hsplit : Str.split_keep ":" (remote ++ ":" ++ img) = [remote; img]).
  { unfold Str.split_keep at 1.
    change (remote ++ ":" ++ img) with (remote ++ String ":" img).
    rewrite (fields_cut ":" remote img Hremote). unfold Str.split_keep.
    rewrite (fields_free ":" img Himg). reflexivity. }
  destruct (section_of_two ":" _ remote img Hsplit) as [H0 H1].
  unfold parse_image. rewrite Hurl, Hcount, H0, H1. reflexivity.
Qed.

(** The image argument is refused exactly when it is no URL and holds more
    than one colon; a URL is taken whole, whatever colons it holds. *)
Theorem parse_image_refused_iff (remote_image_name : string)
    (others : list string) (r : LaunchRequest) :
  (exists message, parse_image (remote_image_name :: others) r = inl message) <->
  is_url remote_image_name = false /\ 2 <= QString.count ":" remote_image_name.
Proof.
  unfold parse_image. destruct (is_url remote_image_name).
  - split; [intros [m H]; discriminate H | intros [H _]; discriminate H].
  - destruct (Nat.ltb_spec 1 (QString.count ":" remote_image_name)) as [Hlt|Hge].
    + split; [intros _; split; [reflexivity | lia] | intros _; eexists; reflexivity].
    + split; [|intros [_ H]; lia].
      intros [m H].
      destruct (Nat.eqb (QString.count ":" remote_image_name) 1); discriminate H.
Qed.

(** ** The arguments as a whole *)

Lemma net_digest_token (valid : string -> bool) (token : string) :
  is_token token = true ->
  net_digest valid token = inr (set_id fresh_net token).
Proof.
  intros Htoken. apply is_token_spec in Htoken as (Hne & Hcomma & Heq).
  unfold net_digest. rewrite (split_free _ _ Hcomma Hne). simpl.
  unfold digest_pair. rewrite (split_free _ _ Heq Hne). simpl.
  rewrite Hne. reflexivity.
Qed.

Section ParseArgsFacts.

Variable valid : string -> bool.
Variable bridged_network_name : string.
Variable toInt : string -> Z.
Variable read_all_cin : string.
Variable is_file : string -> bool.
Variable yaml_load yaml_load_file : string -> sum string string.

Lemma parse_image_network_options (positional : list string)
    (r r' : LaunchRequest) :
  parse_image positional r = inr r' -> network_options r' = network_options r.
Proof.
  unfold parse_image. destruct positional as [|a l]; [intros H; injection H as <-; reflexivity|].
  destruct (is_url a); [intros H; injection H as <-; reflexivity|].
  destruct (Nat.ltb 1 (QString.count ":" a)); [discriminate|].
  destruct (Nat.eqb (QString.count ":" a) 1); intros H; injection H as <-; reflexivity.
Qed.

Lemma parse_cloud_init_network_options (cloud_init : option string)
    (r r' : LaunchRequest) :
  parse_cloud_init read_all_cin is_file yaml_load yaml_load_file cloud_init r = inr r' ->
  network_options r' = network_options r.
Proof.
  unfold parse_cloud_init. destruct cloud_init as [f|]; [|intros H; injection H as <-; reflexivity].
  destruct (String.eqb f "-").
  - destruct (yaml_load read_all_cin); [discriminate|].
    intros H; injection H as <-; reflexivity.
  - destruct (negb (is_file f)); [discriminate|].
    destruct (yaml_load_file f); [discriminate|].
    intros H; injection H as <-; reflexivity.
Qed.

(** The loop over the networks either adds the message of every value, in
    order, or stops at the first value that is refused, with the messages of
    the values before it already added. *)
Lemma add_networks_returns (nets : list string) :
  forall r r',
    add_networks valid nets r = inr r' ->
    exists parsed,
      Forall2 (fun s net => net_digest valid s = inr net) nets parsed /\
      network_options r' = (network_options r ++ parsed)%list.
Proof.
  induction nets as [|s nets IH]; intros r r' H; simpl in H.
  - injection H as <-. exists []. split; [constructor | symmetry; apply app_nil_r].
  - destruct (net_digest valid s) as [e|net] eqn:E; [discriminate H|].
    destruct (IH _ _ H) as (parsed & Hall & Hopts).
    exists (net :: parsed). split; [constructor; assumption|].
    rewrite Hopts. simpl. rewrite <- app_assoc. reflexivity.
Qed.

Lemma add_networks_throws (nets : list string) :
  forall r r' e,
    add_networks valid nets r = inl (e, r') ->
    exists before bad after parsed,
      nets = (before ++ bad :: after)%list /\
      Forall2 (fun s net => net_digest valid s = inr net) before parsed /\
      net_digest valid bad = inl e /\
      network_options r' = (network_options r ++ parsed)%list.
Proof.
  induction nets as [|s nets IH]; intros r r' e H; simpl in H; [discriminate H|].
  destruct (net_digest valid s) as [e'|net] eqn:E.
  - injection H as <- <-. exists [], s, nets, []. repeat split; auto.
    symmetry; apply app_nil_r.
  - destruct (IH _ _ _ H) as (before & bad & after & parsed & -> & Hall & Hbad & Hopts).
    exists (s :: before), bad, after, (net :: parsed).
    repeat split; auto. rewrite Hopts. simpl. rewrite <- app_assoc. reflexivity.
Qed.

Ltac options_kept :=
  repeat match goal with
         | |- context [when_set ?o _ _] => destruct o; simpl
         end; reflexivity.

(** The network options with which the steps before the networks leave the
    request are those it came with. *)
Lemma parse_args_prefix_network_options (parser : ArgParser)
    (request r1 r6 : LaunchRequest) :
  parse_image (positionalArguments parser) request = inr r1 ->
  parse_cloud_init read_all_cin is_file yaml_load yaml_load_file
    (cloudInitOption parser)
    (when_set (diskOption parser) set_disk_space
       (when_set (memOption parser) set_mem_size
          (when_set (cpusOption parser) (fun r v => set_num_cores r (toInt v))
             (when_set (nameOption parser) set_instance_name r1)))) = inr r6 ->
  network_options r6 = network_options request.
Proof.
  intros H1 H6.
  rewrite (parse_cloud_init_network_options _ _ _ H6).
  rewrite <- (parse_image_network_options _ _ _ H1).
  options_kept.
Qed.

(** When [parse_args] returns [Ok] nothing was written to [cerr], and the
    request has gained one network option for [--bridged], if given, and
    one for every [--network], in the order given, each what [net_digest]
    returns for it. *)
Theorem parse_args_ok_networks (parser : ArgParser)
    (request r : LaunchRequest) (cerr : list string) :
  parse_args valid bridged_network_name toInt read_all_cin is_file yaml_load
    yaml_load_file parser request =
  Returned cerr r ParseCode_Ok ->
  cerr = [] /\
  exists parsed,
    Forall2 (fun s net => net_digest valid s = inr net)
      ((if bridgedOption parser then [bridged_network_name] else []) ++
       networkOption parser)%list parsed /\
    network_options r = (network_options request ++ parsed)%list.
Proof.
  unfold parse_args.
  destruct (commandParse parser); try discriminate.
  destruct (Nat.ltb 1 (length (positionalArguments parser))); [discriminate|].
  destruct (parse_image (positionalArguments parser) request) as [m|r1] eqn:H1;
    [discriminate|].
  destruct (parse_cloud_init _ _ _ _ _ _) as [m|r6] eqn:H6; [discriminate|].
  pose proof (parse_args_prefix_network_options parser request r1 r6 H1 H6) as Hkept.
  destruct (bridgedOption parser).
  - destruct (net_digest valid bridged_network_name) as [e|b] eqn:Hb; [discriminate|].
    destruct (add_networks valid (networkOption parser) (add_network_option r6 b))
      as [[[what] r8]|r8] eqn:Hnets; [discriminate|].
    destruct (parse_timeout parser) as [[what]|seconds]; [discriminate|].
    intros H. injection H as <- <-. split; [reflexivity|].
    destruct (add_networks_returns _ _ _ Hnets) as (parsed & Hall & Hopts).
    exists (b :: parsed). split; [constructor; assumption|].
    simpl. rewrite Hopts. simpl. rewrite Hkept, <- app_assoc. reflexivity.
  - destruct (add_networks valid (networkOption parser) r6)
      as [[[what] r8]|r8] eqn:Hnets; [discriminate|].
    destruct (parse_timeout parser) as [[what]|seconds]; [discriminate|].
    intros H. injection H as <- <-. split; [reflexivity|].
    destruct (add_networks_returns _ _ _ Hnets) as (parsed & Hall & Hopts).
    exists parsed. split; [exact Hall|].
    simpl. rewrite Hopts, Hkept. reflexivity.
Qed.

(** A request that came with named network options only and that
    [parse_args] accepts holds named network options only: no option with an
    empty id is sent to the daemon. *)
Theorem parse_args_ok_named (parser : ArgParser)
    (request r : LaunchRequest) (cerr : list string) :
  Forall (fun net => id net <> EmptyString) (network_options request) ->
  parse_args valid bridged_network_name toInt read_all_cin is_file yaml_load
    yaml_load_file parser request =
  Returned cerr r ParseCode_Ok ->
  Forall (fun net => id net <> EmptyString) (network_options r).
Proof.
  unfold parse_args. intros Hnamed.
  destruct (commandParse parser); try discriminate.
  destruct (Nat.ltb 1 (length (positionalArguments parser))); [discriminate|].
  destruct (parse_image (positionalArguments parser) request) as [m|r1] eqn:H1;
    [discriminate|].
  destruct (parse_cloud_init _ _ _ _ _ _) as [m|r6] eqn:H6; [discriminate|].
  pose proof (parse_args_prefix_network_options parser request r1 r6 H1 H6) as Hkept.
  assert (Hloop : forall r7 r8,
            Forall (fun net => id net <> EmptyString) (network_options r7) ->
            add_networks valid (networkOption parser) r7 = inr r8 ->
            Forall (fun net => id net <> EmptyString) (network_options r8)).
  { intros r7 r8 H7 Hnets.
    destruct (add_networks_returns _ _ _ Hnets) as (parsed & Hall & Hopts).
    rewrite Hopts. apply Forall_app. split; [exact H7|].
    clear Hopts Hnets. induction Hall as [|s net nets parsed Hs Hall IH]; constructor; auto.
    apply (net_digest_id_not_empty valid s net Hs). }
  destruct (bridgedOption parser).
  - destruct (net_digest valid bridged_network_name) as [e|b] eqn:Hb; [discriminate|].
    destruct (add_networks valid (networkOption parser) (add_network_option r6 b))
      as [[[what] r8]|r8] eqn:Hnets; [discriminate|].
    destruct (parse_timeout parser) as [[what]|seconds]; [discriminate|].
    intros H. injection H as <- <-. simpl.
    apply (Hloop (add_network_option r6 b) r8); [|exact Hnets].
    simpl. rewrite Hkept. apply Forall_app. split; [exact Hnamed|].
    constructor; [|constructor]. apply (net_digest_id_not_empty valid _ b Hb).
  - destruct (add_networks valid (networkOption parser) r6)
      as [[[what] r8]|r8] eqn:Hnets; [discriminate|].
    destruct (parse_timeout parser) as [[what]|seconds]; [discriminate|].
    intros H. injection H as <- <-. simpl.
    apply (Hloop r6 r8); [rewrite Hkept; exact Hnamed | exact Hnets].
Qed.


(** When a [--network] value is refused, [parse_args] returns
    [CommandLineError] with the reason of the first value that is refused on
    [cerr], as long as the arguments before the networks are in order. *)
Theorem parse_args_first_bad_network (parser : ArgParser)
    (request r : LaunchRequest) (cerr : list string) (code : ParseCode) :
  parse_args valid bridged_network_name toInt read_all_cin is_file yaml_load
    yaml_load_file parser request =
  Returned cerr r code ->
  forall before bad after what,
    networkOption parser = (before ++ bad :: after)%list ->
    Forall (fun s => exists net, net_digest valid s = inr net) before ->
    net_digest valid bad = inl (ValidationError what) ->
    code <> ParseCode_Ok /\
    (commandParse parser = ParseCode_Ok ->
     length (positionalArguments parser) <= 1 ->
     (forall message, parse_image (positionalArguments parser) request <> inl message) ->
     cloudInitOption parser = None ->
     cerr = ["error: " ++ what ++ Str.nl]).
Proof.
  intros Hparse before bad after what Hnets Hbefore Hbad.
  assert (Hloop : forall r7,
            exists r8, add_networks valid (networkOption parser) r7 =
                       inl (ValidationError what, r8)).
  { rewrite Hnets. clear Hnets. induction Hbefore as [|s before [net Hs] Hbefore IH]; intros r7.
    - simpl. rewrite Hbad. eexists. reflexivity.
    - simpl. rewrite Hs. apply IH. }
  revert Hparse. unfold parse_args.
  destruct (commandParse parser) eqn:Hstatus.
  2,3: intros H; injection H as <- <- <-; split; [discriminate | discriminate].
  destruct (Nat.ltb_spec 1 (length (positionalArguments parser))) as [Hmany|Hfew].
  { intros H. injection H as <- <- <-. split; [discriminate|]. intros _ Hle. lia. }
  destruct (parse_image (positionalArguments parser) request) as [m|r1] eqn:H1.
  { intros H. injection H as <- <- <-. split; [discriminate|].
    intros _ _ Himage. contradiction (Himage m). reflexivity. }
  destruct (parse_cloud_init _ _ _ _ _ _) as [m|r6] eqn:H6.
  { intros H. injection H as <- <- <-. split; [discriminate|].
    intros _ _ _ Hcloud. rewrite Hcloud in H6. discriminate H6. }
  destruct (if bridgedOption parser then _ else _) as [e|r7]; [discriminate|].
  destruct (Hloop r7) as [r8 Hr8]. rewrite Hr8.
  intros H. injection H as <- <- <-. split; [discriminate | reflexivity].
Qed.

(** [--bridged] cannot make [parse_args] throw when the name of the bridged
    network is a bare token: no exception leaves [parse_args]. *)
Theorem parse_args_never_throws (parser : ArgParser) (request : LaunchRequest) :
  is_token bridged_network_name = true ->
  forall e r,
    parse_args valid bridged_network_name toInt read_all_cin is_file yaml_load
      yaml_load_file parser request <>
    Thrown e r.
Proof.
  intros Htoken e r. unfold parse_args.
  assert (Hb : exists b, net_digest valid bridged_network_name = inr b)
    by (eexists; apply net_digest_token; exact Htoken).
  destruct Hb as [b Hb]. rewrite Hb.
  destruct (commandParse parser); try discriminate.
  destruct (Nat.ltb 1 (length (positionalArguments parser))); [discriminate|].
  destruct (parse_image (positionalArguments parser) request); [discriminate|].
  destruct (parse_cloud_init _ _ _ _ _ _); [discriminate|].
  destruct (bridgedOption parser).
  - destruct (add_networks valid (networkOption parser) _) as [[[what] r8]|r8];
      [discriminate|].
    destruct (parse_timeout parser) as [[what]|seconds]; discriminate.
  - destruct (add_networks valid (networkOption parser) _) as [[[what] r8]|r8];
      [discriminate|].
    destruct (parse_timeout parser) as [[what]|seconds]; discriminate.
Qed.

End ParseArgsFacts.

(** ** More on the opt-in handshake *)

Lemma regex_match_toLower (answer : string) (alternatives : list string) :
  regex_match (Str.toLower answer) alternatives = regex_match answer alternatives.
Proof. unfold regex_match. rewrite toLower_idem. reflexivity. Qed.

(** When the input runs out before an answer decides, every line read was
    answered with a prompt and the status recorded is "later". *)
Theorem ask_end_of_input (host_info : bool) (input : list string) :
  Forall (fun answer => decisive answer = false) input ->
  fst (fst (ask host_info input)) = LATER /\
  length (snd (fst (ask host_info input))) = length input /\
  snd (ask host_info input) = [].
Proof.
  induction 1 as [|answer input Hanswer Hinput (IH1 & IH2 & IH3)];
    [repeat split|].
  unfold decisive in Hanswer.
  apply orb_false_iff in Hanswer as [Hyn Hl].
  apply orb_false_iff in Hyn as [Hy Hn].
  rewrite ask_answer, Hy, Hn, Hl. cbn [fst snd length].
  rewrite IH1, IH2, IH3. repeat split.
Qed.

(** The answers are read without regard to case: in lower case they record
    the same status and draw the same prompts. *)
Theorem ask_ignores_case (host_info : bool) (input : list string) :
  fst (ask host_info (map Str.toLower input)) = fst (ask host_info input) /\
  snd (ask host_info (map Str.toLower input)) =
  map Str.toLower (snd (ask host_info input)).
Proof.
  induction input as [|answer input [IH1 IH2]]; [split; reflexivity|].
  cbn [map]. rewrite !ask_answer.
  rewrite !regex_match_toLower, is_empty_toLower.
  destruct (regex_match answer yes); [split; reflexivity|].
  destruct (regex_match answer no); [split; reflexivity|].
  destruct (Str.is_empty answer || regex_match answer later);
    [split; reflexivity|].
  cbn [fst snd]. rewrite IH1, IH2. split; reflexivity.
Qed.

(** [on_success] leaves the client as it is but for the lines it reads and
    the opt-in status of the request, and it touches those only when the
    opt-in is pending on a live terminal. *)
Theorem on_success_keeps_request (c : Client) (reply : LaunchReply) :
  let c' := client_of (on_success c reply) in
  (request c' = request c \/
   exists status, request c' = set_opt_in_status (request c) status) /\
  is_live c' = is_live c /\ timer c' = timer c /\
  (metrics_pending reply && is_live c = false -> c' = c).
Proof.
  unfold on_success, client_of.
  destruct (metrics_pending reply); [|simpl; auto].
  destruct (is_live c) eqn:Hlive; [|simpl; auto].
  destruct (ask (has_host_info reply) (cin c)) as [[status printed] unread].
  simpl. split; [right; exists status; reflexivity|].
  split; [reflexivity|]. split; [reflexivity | discriminate].
Qed.

(** ** More on the failure call-back *)

Lemma describe_named (request : LaunchRequest) (details : string)
    (code : LaunchError_ErrorCodes) :
  is_named code = true ->
  describe_error request details code = describe_error request EmptyString code.
Proof. destruct code; [reflexivity..|discriminate]. Qed.

Lemma fold_describe (request : LaunchRequest)
    (codes : list LaunchError_ErrorCodes) :
  forall details,
    fold_left (describe_error request) codes details =
    match last_named codes with
    | Some code => describe_error request EmptyString code
    | None => details
    end.
Proof.
  induction codes as [|code codes IH]; intros details; [reflexivity|].
  simpl. rewrite IH. destruct (last_named codes); [reflexivity|].
  destruct code; reflexivity.
Qed.

(** The details that [on_failure] hands over are the message of the last
    code it has a message for, whatever codes come before or after it, and
    nothing at all when the status carries no such code. *)
Theorem on_failure_last_named_code (c : Client) (status : Status) :
  error_details (snd (on_failure c status)) =
  match last_named (error_codes status) with
  | Some code => describe_error (request c) EmptyString code
  | None => EmptyString
  end.
Proof. unfold on_failure. simpl. apply fold_describe. Qed.

(** ** More on the streaming call-back *)

(** The log line goes out first, through the spinner, and the rest of the
    call-back does not depend on it. *)
Theorem streaming_callback_log_first (reply : LaunchReply) :
  streaming_callback reply =
  (when (negb (Str.is_empty (log_line reply))) [SpinnerPrint (log_line reply)] ++
   streaming_callback (with_log_line reply EmptyString))%list.
Proof. reflexivity. Qed.

(** The reply message is shown only when the reply carries neither a
    progress update nor a create message. *)
Theorem streaming_callback_reply_message (reply : LaunchReply) (message : string) :
  create_oneof reply <> CREATE_ONEOF_NOT_SET ->
  streaming_callback (with_reply_message reply message) =
  streaming_callback reply.
Proof.
  unfold streaming_callback. simpl.
  destruct (create_oneof reply); [reflexivity | reflexivity |].
  intros H. contradiction H. reflexivity.
Qed.


(** ** Instances *)

Lemma net_digest_returns_tokens_witness :
  is_token "eth0" = true /\
  (Str.is_empty "52:54:00:12:34:56" = true \/
   is_token "52:54:00:12:34:56" = true /\
   Utils.valid_mac_address "52:54:00:12:34:56" = true).
Proof.
  exact (net_digest_returns_tokens Utils.valid_mac_address
           "name=eth0,mac=52:54:00:12:34:56"
           {| id := "eth0"; mode := LaunchRequest_NetworkOptions_Mode_AUTO;
              mac_address := "52:54:00:12:34:56" |} eq_refl).
Defined.

Lemma net_digest_bad_part_refused_witness :
  throws (net_digest Utils.valid_mac_address "name=a,colour=red").
Proof.
  apply (net_digest_bad_part_refused Utils.valid_mac_address
           "name=a,colour=red" "colour=red").
  - right. left. reflexivity.
  - left. exists "colour", "red". split; [reflexivity|].
    left. repeat split; discriminate.
Defined.

Lemma net_digest_round_trip_witness :
  net_digest Utils.valid_mac_address
    (write_fields
       (fields_of {| id := "eth0"; mode := LaunchRequest_NetworkOptions_Mode_MANUAL;
                     mac_address := "52:54:00:12:34:56" |})) =
  inr {| id := "eth0"; mode := LaunchRequest_NetworkOptions_Mode_MANUAL;
         mac_address := "52:54:00:12:34:56" |}.
Proof.
  apply (net_digest_round_trip Utils.valid_mac_address).
  - reflexivity.
  - right. split; reflexivity.
Defined.

Lemma net_digest_last_pair_wins_witness :
  last_name [Name "a"; Mode LaunchRequest_NetworkOptions_Mode_MANUAL;
             Mode LaunchRequest_NetworkOptions_Mode_AUTO; Name "b"] = Some "b" /\
  LaunchRequest_NetworkOptions_Mode_AUTO = LaunchRequest_NetworkOptions_Mode_AUTO /\
  EmptyString = EmptyString.
Proof.
  exact (net_digest_last_pair_wins Utils.valid_mac_address
           [Name "a"; Mode LaunchRequest_NetworkOptions_Mode_MANUAL;
            Mode LaunchRequest_NetworkOptions_Mode_AUTO; Name "b"]
           {| id := "b"; mode := LaunchRequest_NetworkOptions_Mode_AUTO;
              mac_address := EmptyString |}
           ltac:(repeat constructor) eq_refl).
Defined.

Lemma net_digest_needs_name_witness :
  net_digest Utils.valid_mac_address
    (write_fields [Mode LaunchRequest_NetworkOptions_Mode_MANUAL;
                   Mac "52:54:00:12:34:56"]) =
  inl (ValidationError "Bad network definition, need at least a 'name' field").
Proof.
  apply (net_digest_needs_name Utils.valid_mac_address).
  - repeat constructor.
  - reflexivity.
Defined.

Lemma net_digest_shorthand_witness :
  net_digest Utils.valid_mac_address "mynet" =
  net_digest Utils.valid_mac_address "name=mynet".
Proof.
  apply (net_digest_shorthand Utils.valid_mac_address "mynet"). reflexivity.
Defined.

Lemma net_digest_first_error_witness :
  net_digest Utils.valid_mac_address "name=a,colour=red,mode=x" =
  inl (ValidationError "Bad network field: colour").
Proof.
  apply (net_digest_first_error Utils.valid_mac_address
           "name=a,colour=red,mode=x" ["name=a"] ["mode=x"] "colour=red"
           {| id := "a"; mode := LaunchRequest_NetworkOptions_Mode_AUTO;
              mac_address := EmptyString |});
    reflexivity.
Defined.

Lemma net_digest_ignores_case_witness :
  net_digest Utils.valid_mac_address "NAME=Eth0,Mode=MANUAL" =
  net_digest Utils.valid_mac_address "name=Eth0,mode=manual".
Proof.
  apply (net_digest_ignores_case Utils.valid_mac_address
           [("NAME", "Eth0"); ("Mode", "MANUAL")]).
  repeat constructor.
Defined.

Lemma parse_image_cuts_at_colon_witness :
  exists remote img,
    parse_image ["daily:focal"] blank_request =
    inr (set_image (set_remote_name blank_request remote) img) /\
    "daily:focal" = remote ++ ":" ++ img /\
    Str.contains ":" remote = false /\ Str.contains ":" img = false.
Proof.
  apply (parse_image_cuts_at_colon "daily:focal" [] blank_request); reflexivity.
Defined.

Lemma parse_image_round_trip_witness :
  parse_image ["daily:focal"] blank_request =
  inr (set_image (set_remote_name blank_request "daily") "focal").
Proof.
  apply (parse_image_round_trip "daily" "focal" [] blank_request); reflexivity.
Defined.

Lemma parse_args_ok_networks_witness :
  cerr_of (sample_parse_args sample_parser blank_request) = [] /\
  exists parsed,
    Forall2 (fun s net => net_digest Utils.valid_mac_address s = inr net)
      ["bridged"; "eth0"; "name=eth1,mode=manual"] parsed /\
    network_options (request_of (sample_parse_args sample_parser blank_request)) =
    parsed.
Proof.
  exact (parse_args_ok_networks Utils.valid_mac_address "bridged" (fun _ => 2%Z)
           EmptyString (fun _ => false) (fun text => inr text)
           (fun text => inr text) sample_parser blank_request
           (request_of (sample_parse_args sample_parser blank_request))
           (cerr_of (sample_parse_args sample_parser blank_request)) eq_refl).
Defined.

Lemma parse_args_ok_named_witness :
  Forall (fun net => id net <> EmptyString)
    (network_options (request_of (sample_parse_args sample_parser blank_request))).
Proof.
  apply (parse_args_ok_named Utils.valid_mac_address "bridged" (fun _ => 2%Z)
           EmptyString (fun _ => false) (fun text => inr text)
           (fun text => inr text) sample_parser blank_request _ []).
  - constructor.
  - reflexivity.
Defined.


Lemma parse_args_first_bad_network_witness :
  CommandLineError <> ParseCode_Ok /\
  cerr_of (sample_parse_args refused_parser blank_request) =
  ["error: Bad network field: colour" ++ Str.nl].
Proof.
  destruct (parse_args_first_bad_network Utils.valid_mac_address "bridged"
              (fun _ => 2%Z) EmptyString (fun _ => false) (fun text => inr text)
              (fun text => inr text) refused_parser blank_request
              (request_of (sample_parse_args refused_parser blank_request))
              (cerr_of (sample_parse_args refused_parser blank_request))
              CommandLineError eq_refl
              ["eth0"] "colour=red" ["name=eth1,mode="] "Bad network field: colour"
              eq_refl
              ltac:(repeat constructor; eexists; reflexivity) eq_refl)
    as [Hcode Hcerr].
  split; [exact Hcode|].
  apply Hcerr; [reflexivity | simpl; lia | discriminate | reflexivity].
Defined.

Lemma parse_args_never_throws_witness :
  sample_parse_args sample_parser blank_request <>
  Thrown (ValidationError "Bad network field definition: bridged") blank_request.
Proof.
  apply (parse_args_never_throws Utils.valid_mac_address "bridged" (fun _ => 2%Z)
           EmptyString (fun _ => false) (fun text => inr text)
           (fun text => inr text) sample_parser blank_request).
  reflexivity.
Defined.

Lemma ask_decided_witness :
  fst (fst (ask false ["maybe"; "Yes"; "no"])) = fst (fst (ask false ["Yes"])) /\
  snd (ask false ["maybe"; "Yes"; "no"]) = ["no"].
Proof.
  apply (ask_decided false ["maybe"] "Yes" ["no"]).
  - repeat constructor.
  - reflexivity.
Defined.

Lemma ask_end_of_input_witness :
  fst (fst (ask true ["maybe"; "show"])) = LATER /\
  length (snd (fst (ask true ["maybe"; "show"]))) = 2 /\
  snd (ask true ["maybe"; "show"]) = [].
Proof.
  apply (ask_end_of_input true ["maybe"; "show"]). repeat constructor.
Defined.

Lemma streaming_callback_reply_message_witness :
  streaming_callback
    (with_reply_message
       (progress_reply LaunchProgress_ProgressTypes_IMAGE "42") "Starting") =
  streaming_callback (progress_reply LaunchProgress_ProgressTypes_IMAGE "42").
Proof.
  apply (streaming_callback_reply_message
           (progress_reply LaunchProgress_ProgressTypes_IMAGE "42") "Starting").
  discriminate.
Defined.
